(** * Quantum_Computing / PennyLane_tutorial: circuits I4.py and I5.py

    The two exercise files define quantum functions ("qnodes").  Calling a
    qnode runs the Python body, which queues a list of gate operations and
    names a measurement; the simulated device then starts from the all-zero
    basis state, applies the queued operations in order and reads out the
    state vector or the outcome probabilities.

    The embedding follows that split:
    - complex amplitudes are pairs of real numbers (the idealisation of the
      simulator's complex128 values);
    - a register of [n] wires is a rank-[n] tensor of shape (2, ..., 2), as
      the simulator stores it, wire 0 being the outermost axis;
    - the body of every qnode is the list of operations it queues;
    - [execute] is the device. *)

From Stdlib Require Import Reals Lra Lia ZArith List Bool QArith Qreals.
From Stdlib Require Import Machin.
Import ListNotations.

Local Open Scope R_scope.

(** ** Complex amplitudes *)

Definition C : Type := (R * R)%type.

Definition RtoC (x : R) : C := (x, 0).
Definition C0 : C := RtoC 0.
Definition C1 : C := RtoC 1.
Definition Ci : C := (0, 1).

Definition Cplus (a b : C) : C := (fst a + fst b, snd a + snd b).
Definition Cmult (a b : C) : C :=
  (fst a * fst b - snd a * snd b, fst a * snd b + snd a * fst b).
Definition Copp (a : C) : C := (- fst a, - snd a).
Definition Cconj (a : C) : C := (fst a, - snd a).

(** Squared modulus, the quantity probabilities are made of. *)
Definition Cnorm2 (a : C) : R := fst a * fst a + snd a * snd a.

(** [exp(1j * t)] *)
Definition Cexp (t : R) : C := (cos t, sin t).

(** ** 2x2 matrices *)

Record Matrix2 : Type := mkM2 { m00 : C; m01 : C; m10 : C; m11 : C }.

Definition I2 : Matrix2 := mkM2 C1 C0 C0 C1.

Definition Mmult (A B : Matrix2) : Matrix2 :=
  mkM2 (Cplus (Cmult (m00 A) (m00 B)) (Cmult (m01 A) (m10 B)))
       (Cplus (Cmult (m00 A) (m01 B)) (Cmult (m01 A) (m11 B)))
       (Cplus (Cmult (m10 A) (m00 B)) (Cmult (m11 A) (m10 B)))
       (Cplus (Cmult (m10 A) (m01 B)) (Cmult (m11 A) (m11 B))).

(** Conjugate transpose. *)
Definition Madjoint (A : Matrix2) : Matrix2 :=
  mkM2 (Cconj (m00 A)) (Cconj (m10 A)) (Cconj (m01 A)) (Cconj (m11 A)).

Definition unitary (A : Matrix2) : Prop :=
  Mmult (Madjoint A) A = I2 /\ Mmult A (Madjoint A) = I2.

(** ** Registers: tensors of shape (2, ..., 2) *)

Fixpoint tensor (n : nat) : Type :=
  match n with
  | O => C
  | Datatypes.S k => (tensor k * tensor k)%type
  end.

Fixpoint tzero (n : nat) : tensor n :=
  match n with
  | O => C0
  | Datatypes.S k => (tzero k, tzero k)
  end.

(** The state [|0...0>] every execution starts from. *)
Fixpoint basis0 (n : nat) : tensor n :=
  match n with
  | O => C1
  | Datatypes.S k => (basis0 k, tzero k)
  end.

Fixpoint tadd (n : nat) : tensor n -> tensor n -> tensor n :=
  match n with
  | O => fun a b => Cplus a b
  | Datatypes.S k => fun a b => (tadd k (fst a) (fst b), tadd k (snd a) (snd b))
  end.

Fixpoint tscale (n : nat) (c : C) : tensor n -> tensor n :=
  match n with
  | O => fun a => Cmult c a
  | Datatypes.S k => fun a => (tscale k c (fst a), tscale k c (snd a))
  end.

(** Row-major flattening: the order in which [qml.state()] lists amplitudes. *)
Fixpoint flatten (n : nat) : tensor n -> list C :=
  match n with
  | O => fun a => [a]
  | Datatypes.S k => fun a => flatten k (fst a) ++ flatten k (snd a)
  end.

Fixpoint norm2 (n : nat) : tensor n -> R :=
  match n with
  | O => fun a => Cnorm2 a
  | Datatypes.S k => fun a => norm2 k (fst a) + norm2 k (snd a)
  end.

(** Contract a 2x2 matrix with axis [w] of a rank-[n] tensor.  A wire that is
    not on the device is an error ([None]). *)
Fixpoint apply_matrix (M : Matrix2) (n w : nat) : tensor n -> option (tensor n) :=
  match n with
  | O => fun _ => None
  | Datatypes.S k => fun a =>
      match w with
      | O => Some (tadd k (tscale k (m00 M) (fst a)) (tscale k (m01 M) (snd a)),
                   tadd k (tscale k (m10 M) (fst a)) (tscale k (m11 M) (snd a)))
      | Datatypes.S w' =>
          match apply_matrix M k w' (fst a), apply_matrix M k w' (snd a) with
          | Some lo, Some hi => Some (lo, hi)
          | _, _ => None
          end
      end
  end.

(** Marginal outcome probabilities over the wires [ws], first listed wire most
    significant.  Basis state [i] of an [n]-wire register carries wire [w] in
    bit [n - 1 - w] of [i]. *)
Definition outcome_matches (n : nat) (ws : list nat) (k i : nat) : bool :=
  forallb (fun wj : nat * nat =>
             Bool.eqb (Nat.testbit i (n - 1 - fst wj))
                      (Nat.testbit k (List.length ws - 1 - snd wj)))
          (combine ws (seq 0 (List.length ws))).

Definition Rsum (l : list R) : R := fold_right Rplus 0 l.

Definition marginal (n : nat) (ws : list nat) (amps : list C) (k : nat) : R :=
  Rsum (map (fun i => Cnorm2 (nth i amps C0))
            (filter (outcome_matches n ws k) (seq 0 (2 ^ n)))).

Fixpoint distinct (ws : list nat) : bool :=
  match ws with
  | [] => true
  | w :: r => negb (existsb (Nat.eqb w) r) && distinct r
  end.

Definition wires_ok (n : nat) (ws : list nat) : bool :=
  forallb (fun w => w <? n)%nat ws && distinct ws.

(** ** The part of the framework the exercises call

    The simulation framework is a dependency and not part of the repository.
    The gate matrices are the ones it documents; an operation acts on one
    wire; [qml.adjoint(op)] stands for the operation with the conjugate
    transpose of [op]'s matrix. *)

Module qml.

(** Operations, as the exercises construct them.  [adjoint op] is the
    operation whose matrix is the conjugate transpose of [op]'s. *)
Inductive Operation : Type :=
| PauliX (wires : nat)
| PauliZ (wires : nat)
| Hadamard (wires : nat)
| S (wires : nat)
| T (wires : nat)
| RZ (phi : R) (wires : nat)
| QubitUnitary (U : Matrix2) (wires : nat)
| adjoint (op : Operation).

Definition INV_SQRT2 : R := 1 / sqrt 2.

Fixpoint matrix (op : Operation) : Matrix2 :=
  match op with
  | PauliX _ => mkM2 C0 C1 C1 C0
  | PauliZ _ => mkM2 C1 C0 C0 (RtoC (-1))
  | Hadamard _ =>
      mkM2 (RtoC INV_SQRT2) (RtoC INV_SQRT2) (RtoC INV_SQRT2) (RtoC (- INV_SQRT2))
  | S _ => mkM2 C1 C0 C0 Ci
  | T _ => mkM2 C1 C0 C0 (Cexp (PI / 4))
  | RZ phi _ => mkM2 (Cexp (- phi / 2)) C0 C0 (Cexp (phi / 2))
  | QubitUnitary U _ => U
  | adjoint op' => Madjoint (matrix op')
  end.

Fixpoint wire (op : Operation) : nat :=
  match op with
  | PauliX w | PauliZ w | Hadamard w | S w | T w | RZ _ w | QubitUnitary _ w => w
  | adjoint op' => wire op'
  end.

Inductive Measurement : Type :=
| state
| probs (wires : list nat).

(** What a quantum function leaves behind when its body has run. *)
Record Tape : Type := mkTape { operations : list Operation; measurement : Measurement }.

Record Device : Type := device { num_wires : nat }.

Inductive Result : Type :=
| StateVector (amplitudes : list C)
| Probabilities (p : list R).

Fixpoint apply_operations (n : nat) (ops : list Operation) (psi : tensor n)
  : option (tensor n) :=
  match ops with
  | [] => Some psi
  | op :: rest =>
      match apply_matrix (matrix op) n (wire op) psi with
      | Some psi' => apply_operations n rest psi'
      | None => None
      end
  end.

Definition measure (n : nat) (m : Measurement) (psi : tensor n) : option Result :=
  match m with
  | state => Some (StateVector (flatten n psi))
  | probs ws =>
      if wires_ok n ws
      then Some (Probabilities
                   (map (marginal n ws (flatten n psi)) (seq 0 (2 ^ List.length ws))))
      else None
  end.

(** A device run: reset to [|0...0>], apply the tape, measure. *)
Definition execute (dev : Device) (t : Tape) : option Result :=
  match apply_operations (num_wires dev) (operations t) (basis0 (num_wires dev)) with
  | Some psi => measure (num_wires dev) (measurement t) psi
  | None => None
  end.

(** [@qml.qnode(dev)]: calling the decorated function builds the tape and
    executes it on the device fixed at decoration time. *)
Definition qnode (dev : Device) (t : Tape) : option Result := execute dev t.

End qml.

(** ** I4.py *)

Module I4.

(** Every [dev = qml.device("default.qubit", wires=1)] of the file builds a
    device of the same shape; each qnode keeps the one current at its
    decoration. *)
Definition dev : qml.Device := qml.device 1.

(** [U = np.array([[1, 1], [1, -1]]) / np.sqrt(2)] *)
Definition U : Matrix2 :=
  mkM2 (RtoC (1 / sqrt 2)) (RtoC (1 / sqrt 2))
       (RtoC (1 / sqrt 2)) (RtoC (-1 / sqrt 2)).

(** For each qnode [f], [f_func] is the queue its body leaves behind and
    [f] the decorated, callable function. *)

Definition varied_initial_state_func (state : Z) : qml.Tape :=
  qml.mkTape
    (if (state =? 1)%Z
     then [qml.PauliX 0; qml.QubitUnitary U 0]
     else [qml.QubitUnitary U 0])
    qml.state.

Definition varied_initial_state (state : Z) : option qml.Result :=
  qml.qnode dev (varied_initial_state_func state).

Definition apply_hadamard_func : qml.Tape :=
  qml.mkTape [qml.Hadamard 0] qml.state.

Definition apply_hadamard : option qml.Result :=
  qml.qnode dev apply_hadamard_func.

(** The local [U] of the body is assigned and never used. *)
Definition apply_hadamard_to_state_func (state : Z) : qml.Tape :=
  qml.mkTape
    ((if (state =? 1)%Z then [qml.PauliX 0] else [])
       ++ [qml.Hadamard 0])
    qml.state.

Definition apply_hadamard_to_state (state : Z) : option qml.Result :=
  qml.qnode dev (apply_hadamard_to_state_func state).

Definition apply_hxh_func (state : Z) : qml.Tape :=
  qml.mkTape
    ((if (state =? 1)%Z then [qml.PauliX 0] else [])
       ++ [qml.Hadamard 0; qml.PauliX 0; qml.Hadamard 0])
    qml.state.

Definition apply_hxh (state : Z) : option qml.Result :=
  qml.qnode dev (apply_hxh_func state).

End I4.

(** ** I5.py *)

Module I5.

(** The one-wire devices of exercises 1 to 3 ([many_rotations] reuses the
    device of [fake_z]). *)
Definition dev : qml.Device := qml.device 1.

(** [dev = qml.device('default.qubit', wires=3)] of exercise 4. *)
Definition dev3 : qml.Device := qml.device 3.

Definition apply_z_to_plus_func : qml.Tape :=
  qml.mkTape [qml.Hadamard 0; qml.PauliZ 0] qml.state.

Definition apply_z_to_plus : option qml.Result :=
  qml.qnode dev apply_z_to_plus_func.

(** The angle literal of [fake_z], read as the decimal it is written as. *)
Definition fake_z_angle : R := 3.14159265359.

Definition fake_z_func : qml.Tape :=
  qml.mkTape [qml.Hadamard 0; qml.RZ fake_z_angle 0] qml.state.

Definition fake_z : option qml.Result :=
  qml.qnode dev fake_z_func.

Definition many_rotations_func : qml.Tape :=
  qml.mkTape
    [qml.Hadamard 0;
     qml.S 0;
     qml.adjoint (qml.T 0);
     qml.RZ 0.3 0;
     qml.adjoint (qml.S 0)]
    qml.state.

Definition many_rotations : option qml.Result :=
  qml.qnode dev many_rotations_func.

Definition just_enough_ts_func : qml.Tape :=
  qml.mkTape
    [qml.Hadamard 0; qml.Hadamard 1; qml.Hadamard 2;
     qml.S 0; qml.T 1; qml.adjoint (qml.T 2);
     qml.Hadamard 0; qml.Hadamard 1; qml.Hadamard 2;
     qml.adjoint (qml.S 0); qml.S 1; qml.adjoint (qml.S 2);
     qml.S 1; qml.adjoint (qml.T 2);
     qml.Hadamard 0; qml.Hadamard 1; qml.Hadamard 2]
    (qml.probs [0; 1; 2]%nat).

Definition just_enough_ts : option qml.Result :=
  qml.qnode dev3 just_enough_ts_func.

(** The figures the closing comments of the file note for the circuit of the
    exercise sheet and for [just_enough_ts]; the file assigns none of them,
    and the circuit of the exercise sheet is not in it. *)
Definition original_depth : nat := 8.
Definition original_t_depth : nat := 6.
Definition optimal_depth : nat := 6.
Definition optimal_t_count : nat := 3.
Definition optimal_t_depth : nat := 2.

End I5.

(** ** Counting T gates *)

(** An operation counts when it is [T] under any number of [adjoint]s. *)
Fixpoint is_t_gate (op : qml.Operation) : bool :=
  match op with
  | qml.T _ => true
  | qml.adjoint op' => is_t_gate op'
  | _ => false
  end.

Definition t_count (t : qml.Tape) : nat :=
  List.length (filter is_t_gate (qml.operations t)).

(** ** Comparing state vectors *)

Definition Cabs (a : C) : R := sqrt (Cnorm2 a).

(** [v] is [w] multiplied by one complex number of modulus 1. *)
Definition equal_up_to_phase (v w : list C) : Prop :=
  exists c : C, Cnorm2 c = 1 /\ v = map (Cmult c) w.

Definition ket0 : list C := [C1; C0].
Definition ket1 : list C := [C0; C1].

(** Pauli-Z applied to the basis state a flag prepares: the circuit
    [apply_hxh] is compared with. *)
Definition pauli_z_on_flag (state : Z) : qml.Tape :=
  qml.mkTape
    ((if (state =? 1)%Z then [qml.PauliX 0] else []) ++ [qml.PauliZ 0])
    qml.state.

(** [fake_z] with the angle left open, to compare the literal with pi. *)
Definition fake_z_at (phi : R) : option qml.Result :=
  qml.qnode I5.dev (qml.mkTape [qml.Hadamard 0; qml.RZ phi 0] qml.state).

(** ** Operations that preserve the norm *)

(** Every gate of the framework qualifies; a user matrix does when it is
    unitary. *)
Fixpoint well_formed_op (op : qml.Operation) : Prop :=
  match op with
  | qml.QubitUnitary M _ => unitary M
  | qml.adjoint op' => well_formed_op op'
  | _ => True
  end.

(** Inner product of two registers, real and imaginary part. *)
Fixpoint dot_re (n : nat) : tensor n -> tensor n -> R :=
  match n with
  | O => fun x y => fst x * fst y + snd x * snd y
  | Datatypes.S k => fun x y => dot_re k (fst x) (fst y) + dot_re k (snd x) (snd y)
  end.

Fixpoint dot_im (n : nat) : tensor n -> tensor n -> R :=
  match n with
  | O => fun x y => fst x * snd y - snd x * fst y
  | Datatypes.S k => fun x y => dot_im k (fst x) (fst y) + dot_im k (snd x) (snd y)
  end.

(** ** The qnodes of the repository *)

Inductive QNode : Type :=
| Q_varied_initial_state
| Q_apply_hadamard
| Q_apply_hadamard_to_state
| Q_apply_hxh
| Q_apply_z_to_plus
| Q_fake_z
| Q_many_rotations
| Q_just_enough_ts.

Definition all_qnodes : list QNode :=
  [Q_varied_initial_state; Q_apply_hadamard; Q_apply_hadamard_to_state; Q_apply_hxh;
   Q_apply_z_to_plus; Q_fake_z; Q_many_rotations; Q_just_enough_ts].

(** The parameter list of a [def] line: empty, or the single flag [state]. *)
Inductive Params : Type :=
| no_params
| flag_param.

Definition params (q : QNode) : Params :=
  match q with
  | Q_varied_initial_state => flag_param
  | Q_apply_hadamard => no_params
  | Q_apply_hadamard_to_state => flag_param
  | Q_apply_hxh => flag_param
  | Q_apply_z_to_plus => no_params
  | Q_fake_z => no_params
  | Q_many_rotations => no_params
  | Q_just_enough_ts => no_params
  end.

Definition takes_flag (q : QNode) : bool :=
  match params q with flag_param => true | no_params => false end.

Definition Args (q : QNode) : Type :=
  match params q with
  | no_params => unit
  | flag_param => Z
  end.

Definition func (q : QNode) : Args q -> qml.Tape :=
  match q return Args q -> qml.Tape with
  | Q_varied_initial_state => I4.varied_initial_state_func
  | Q_apply_hadamard => fun _ => I4.apply_hadamard_func
  | Q_apply_hadamard_to_state => I4.apply_hadamard_to_state_func
  | Q_apply_hxh => I4.apply_hxh_func
  | Q_apply_z_to_plus => fun _ => I5.apply_z_to_plus_func
  | Q_fake_z => fun _ => I5.fake_z_func
  | Q_many_rotations => fun _ => I5.many_rotations_func
  | Q_just_enough_ts => fun _ => I5.just_enough_ts_func
  end.

Definition device_of (q : QNode) : qml.Device :=
  match q with
  | Q_just_enough_ts => I5.dev3
  | Q_varied_initial_state | Q_apply_hadamard | Q_apply_hadamard_to_state
  | Q_apply_hxh => I4.dev
  | Q_apply_z_to_plus | Q_fake_z | Q_many_rotations => I5.dev
  end.

(** Calling a qnode. *)
Definition call (q : QNode) (a : Args q) : option qml.Result :=
  qml.qnode (device_of q) (func q a).

(** ** Module namespaces and calls

    What a call can see besides its argument are the names of its module:
    [U] and [dev] are module-level variables, [dev] is rebound before most
    definitions, and the decorator [@qml.qnode(dev)] hands the device bound
    to [dev] at that moment to the function it decorates.  A module is
    modelled by its variables and its decorated functions, loading a module
    by running its top-level statements in order, and a function body by the
    steps it takes on a frame: it queues operations, reads a module
    variable, binds a local one. *)

Record Globals : Type := mkGlobals { g_U : option Matrix2; g_dev : option qml.Device }.

Record ModuleState : Type :=
  mkModule { globals : Globals; decorated : QNode -> option qml.Device }.

Definition empty_module : ModuleState := mkModule (mkGlobals None None) (fun _ => None).

Definition QNode_eqb (a b : QNode) : bool :=
  match a, b with
  | Q_varied_initial_state, Q_varied_initial_state
  | Q_apply_hadamard, Q_apply_hadamard
  | Q_apply_hadamard_to_state, Q_apply_hadamard_to_state
  | Q_apply_hxh, Q_apply_hxh
  | Q_apply_z_to_plus, Q_apply_z_to_plus
  | Q_fake_z, Q_fake_z
  | Q_many_rotations, Q_many_rotations
  | Q_just_enough_ts, Q_just_enough_ts => true
  | _, _ => false
  end.

(** Top-level statements: [dev = qml.device(...)], [U = ...] and a decorated
    definition. *)
Inductive Statement : Type :=
| assign_dev (d : qml.Device)
| assign_U (u : Matrix2)
| def_qnode (q : QNode).

(** A definition decorated while [dev] is unbound fails ([None]). *)
Definition exec_statement (st : Statement) (m : ModuleState) : option ModuleState :=
  match st with
  | assign_dev d =>
      Some (mkModule (mkGlobals (g_U (globals m)) (Some d)) (decorated m))
  | assign_U u =>
      Some (mkModule (mkGlobals (Some u) (g_dev (globals m))) (decorated m))
  | def_qnode q =>
      match g_dev (globals m) with
      | Some d =>
          Some (mkModule (globals m)
                         (fun q' => if QNode_eqb q q' then Some d else decorated m q'))
      | None => None
      end
  end.

Fixpoint exec_statements (sts : list Statement) (m : ModuleState) : option ModuleState :=
  match sts with
  | [] => Some m
  | st :: rest =>
      match exec_statement st m with
      | Some m' => exec_statements rest m'
      | None => None
      end
  end.

Definition I4_statements : list Statement :=
  [assign_dev (qml.device 1); assign_U I4.U; def_qnode Q_varied_initial_state;
   assign_dev (qml.device 1); def_qnode Q_apply_hadamard;
   assign_dev (qml.device 1); def_qnode Q_apply_hadamard_to_state;
   assign_dev (qml.device 1); def_qnode Q_apply_hxh].

Definition I5_statements : list Statement :=
  [assign_dev (qml.device 1); def_qnode Q_apply_z_to_plus;
   assign_dev (qml.device 1); def_qnode Q_fake_z; def_qnode Q_many_rotations;
   assign_dev (qml.device 3); def_qnode Q_just_enough_ts].

(** The frame of a running body: the variables of its module, its local
    [U] and the operations queued so far. *)
Record Frame : Type :=
  mkFrame { frame_globals : Globals; local_U : option Matrix2;
            queue : list qml.Operation }.

(** A step of a body; [None] is a name that is not bound. *)
Definition Body (A : Type) : Type := Frame -> option (A * Frame).

Definition ret {A : Type} (x : A) : Body A := fun f => Some (x, f).

Definition bind {A B : Type} (c : Body A) (k : A -> Body B) : Body B :=
  fun f => match c f with
           | Some (x, f') => k x f'
           | None => None
           end.

Declare Scope body_scope.
Delimit Scope body_scope with body.
Notation "x <- c ;; k" := (bind c (fun x => k))
  (at level 61, c at next level, right associativity) : body_scope.
Notation "c ;; k" := (bind c (fun _ => k))
  (at level 61, right associativity) : body_scope.

Definition enqueue (op : qml.Operation) : Body unit :=
  fun f => Some (tt, mkFrame (frame_globals f) (local_U f) (queue f ++ [op])).

(** Reading [U] in a body that never assigns it: the module's [U]. *)
Definition global_U : Body Matrix2 :=
  fun f => match g_U (frame_globals f) with
           | Some u => Some (u, f)
           | None => None
           end.

(** [U = ...] inside a body binds a local name. *)
Definition set_local_U (u : Matrix2) : Body unit :=
  fun f => Some (tt, mkFrame (frame_globals f) (Some u) (queue f)).

Definition varied_initial_state_body (state : Z) : Body qml.Measurement :=
  ((if (state =? 1)%Z
    then (enqueue (qml.PauliX 0) ;;
          U <- global_U ;; enqueue (qml.QubitUnitary U 0))
    else (U <- global_U ;; enqueue (qml.QubitUnitary U 0))) ;;
   ret qml.state)%body.

Definition apply_hadamard_body : Body qml.Measurement :=
  (enqueue (qml.Hadamard 0) ;; ret qml.state)%body.

Definition apply_hadamard_to_state_body (state : Z) : Body qml.Measurement :=
  (set_local_U (mkM2 (RtoC (1 / sqrt 2)) (RtoC (1 / sqrt 2))
                     (RtoC (1 / sqrt 2)) (RtoC (-1 / sqrt 2))) ;;
   (if (state =? 1)%Z then enqueue (qml.PauliX 0) else ret tt) ;;
   enqueue (qml.Hadamard 0) ;;
   ret qml.state)%body.

Definition apply_hxh_body (state : Z) : Body qml.Measurement :=
  ((if (state =? 1)%Z then enqueue (qml.PauliX 0) else ret tt) ;;
   enqueue (qml.Hadamard 0) ;;
   enqueue (qml.PauliX 0) ;;
   enqueue (qml.Hadamard 0) ;;
   ret qml.state)%body.

Definition apply_z_to_plus_body : Body qml.Measurement :=
  (enqueue (qml.Hadamard 0) ;; enqueue (qml.PauliZ 0) ;; ret qml.state)%body.

Definition fake_z_body : Body qml.Measurement :=
  (enqueue (qml.Hadamard 0) ;; enqueue (qml.RZ 3.14159265359 0) ;; ret qml.state)%body.

Definition many_rotations_body : Body qml.Measurement :=
  (enqueue (qml.Hadamard 0) ;;
   enqueue (qml.S 0) ;;
   enqueue (qml.adjoint (qml.T 0)) ;;
   enqueue (qml.RZ 0.3 0) ;;
   enqueue (qml.adjoint (qml.S 0)) ;;
   ret qml.state)%body.

Definition just_enough_ts_body : Body qml.Measurement :=
  (enqueue (qml.Hadamard 0) ;; enqueue (qml.Hadamard 1) ;; enqueue (qml.Hadamard 2) ;;
   enqueue (qml.S 0) ;; enqueue (qml.T 1) ;; enqueue (qml.adjoint (qml.T 2)) ;;
   enqueue (qml.Hadamard 0) ;; enqueue (qml.Hadamard 1) ;; enqueue (qml.Hadamard 2) ;;
   enqueue (qml.adjoint (qml.S 0)) ;; enqueue (qml.S 1) ;;
   enqueue (qml.adjoint (qml.S 2)) ;;
   enqueue (qml.S 1) ;; enqueue (qml.adjoint (qml.T 2)) ;;
   enqueue (qml.Hadamard 0) ;; enqueue (qml.Hadamard 1) ;; enqueue (qml.Hadamard 2) ;;
   ret (qml.probs [0; 1; 2]%nat))%body.

Definition body (q : QNode) : Args q -> Body qml.Measurement :=
  match q return Args q -> Body qml.Measurement with
  | Q_varied_initial_state => varied_initial_state_body
  | Q_apply_hadamard => fun _ => apply_hadamard_body
  | Q_apply_hadamard_to_state => apply_hadamard_to_state_body
  | Q_apply_hxh => apply_hxh_body
  | Q_apply_z_to_plus => fun _ => apply_z_to_plus_body
  | Q_fake_z => fun _ => fake_z_body
  | Q_many_rotations => fun _ => many_rotations_body
  | Q_just_enough_ts => fun _ => just_enough_ts_body
  end.

(** A step that leaves the variables of the module as it found them. *)
Definition keeps_globals {A : Type} (c : Body A) : Prop :=
  forall (f f' : Frame) (x : A), c f = Some (x, f') -> frame_globals f' = frame_globals f.

(** Calling [q] in a module: the body runs on a fresh frame over the
    module's variables, the queue is executed on the device the function was
    decorated with, and the module is left with the variables of the final
    frame.  A function the module does not define is an error. *)
Definition call_in (q : QNode) (a : Args q) (m : ModuleState)
  : option qml.Result * ModuleState :=
  match decorated m q with
  | None => (None, m)
  | Some d =>
      match body q a (mkFrame (globals m) None []) with
      | Some (meas, f) =>
          (qml.execute d (qml.mkTape (queue f) meas),
           mkModule (frame_globals f) (decorated m))
      | None => (None, m)
      end
  end.

(** The two modules side by side. *)
Record Session : Type := mkSession { session_I4 : ModuleState; session_I5 : ModuleState }.

Definition in_I4 (q : QNode) : bool :=
  match q with
  | Q_varied_initial_state | Q_apply_hadamard | Q_apply_hadamard_to_state
  | Q_apply_hxh => true
  | _ => false
  end.

Definition imported : option Session :=
  match exec_statements I4_statements empty_module,
        exec_statements I5_statements empty_module with
  | Some m4, Some m5 => Some (mkSession m4 m5)
  | _, _ => None
  end.

(** A call: a qnode with its argument. *)
Record Call : Type := mkCall { callee : QNode; argument : Args callee }.

Definition invoke (c : Call) (s : Session) : option qml.Result * Session :=
  if in_I4 (callee c)
  then let rm := call_in (callee c) (argument c) (session_I4 s) in
       (fst rm, mkSession (snd rm) (session_I5 s))
  else let rm := call_in (callee c) (argument c) (session_I5 s) in
       (fst rm, mkSession (session_I4 s) (snd rm)).

(** Run a list of calls in order, keeping only the session. *)
Fixpoint invoke_all (cs : list Call) (s : Session) : Session :=
  match cs with
  | [] => s
  | c :: rest => invoke_all rest (snd (invoke c s))
  end.

(** ** The matrix of a one-wire tape *)

(** The matrix a tape of operations on one wire applies: the product of the
    operations' matrices, the first operation rightmost. *)
Definition tape_matrix (ops : list qml.Operation) : Matrix2 :=
  fold_left (fun acc op => Mmult (qml.matrix op) acc) ops I2.

(** ** Predicates on tapes *)

(** The operation acts on a wire the device has. *)
Definition on_device (n : nat) (op : qml.Operation) : Prop := (qml.wire op < n)%nat.

(** The quantum function of a qnode whose parameter list is the flag. *)
Definition flag_func (q : QNode) : option (Z -> qml.Tape) :=
  match params q as p
        return ((match p return Type with no_params => unit | flag_param => Z end)
                -> qml.Tape)
               -> option (Z -> qml.Tape)
  with
  | no_params => fun _ => None
  | flag_param => fun f => Some f
  end (func q).

(** A bit flip on wire 0 exactly when the flag is 1, then a sequence that
    does not depend on the flag, then the state read out. *)
Definition follows_flag_scheme (f : Z -> qml.Tape) : Prop :=
  exists body : list qml.Operation,
    forall state : Z,
      f state
      = qml.mkTape ((if (state =? 1)%Z then [qml.PauliX 0] else []) ++ body) qml.state.

(** ** Further comparisons of state vectors *)

(** Inner product, conjugate-linear in the first argument. *)
Fixpoint inner (v w : list C) : C :=
  match v, w with
  | a :: v', b :: w' => Cplus (Cmult (Cconj a) b) (inner v' w')
  | _, _ => C0
  end.

(** The states written |+> and |-> . *)
Definition plus_state : list C := [RtoC qml.INV_SQRT2; RtoC qml.INV_SQRT2].
Definition minus_state : list C := [RtoC qml.INV_SQRT2; RtoC (- qml.INV_SQRT2)].

Definition Cminus (a b : C) : C := Cplus a (Copp b).

(** ** Depth of a tape of one-wire operations *)

(** Number of operations on wire [w] that satisfy [sel]. *)
Definition wire_load (sel : qml.Operation -> bool) (ops : list qml.Operation) (w : nat)
  : nat :=
  List.length (filter (fun op => sel op && (qml.wire op =? w)%nat) ops).

(** Operations on one wire run one after the other and different wires run
    side by side, so a tape of one-wire operations is as deep as its busiest
    wire. *)
Definition depth_of (sel : qml.Operation -> bool) (n : nat) (t : qml.Tape) : nat :=
  fold_right Nat.max 0%nat (map (wire_load sel (qml.operations t)) (seq 0 n)).

Definition depth (n : nat) (t : qml.Tape) : nat := depth_of (fun _ => true) n t.
Definition t_depth (n : nat) (t : qml.Tape) : nat := depth_of is_t_gate n t.

(** ** Exact amplitudes

    The gates of [just_enough_ts] have entries in the rationals extended by
    sqrt 2 and i, so its run can be computed exactly and compared with the
    run over the reals. *)

(** [a + b * sqrt 2] with rational [a] and [b]. *)
Definition Q2 : Type := (Q * Q)%type.

Definition Q2toR (x : Q2) : R := Q2R (fst x) + Q2R (snd x) * sqrt 2.

Definition Q2add (x y : Q2) : Q2 :=
  (Qred (fst x + fst y), Qred (snd x + snd y))%Q.
Definition Q2sub (x y : Q2) : Q2 :=
  (Qred (fst x - fst y), Qred (snd x - snd y))%Q.
Definition Q2neg (x : Q2) : Q2 := (Qred (- fst x), Qred (- snd x))%Q.
Definition Q2mul (x y : Q2) : Q2 :=
  (Qred (fst x * fst y + (2 # 1) * (snd x * snd y)),
   Qred (fst x * snd y + snd x * fst y))%Q.

Definition XC : Type := (Q2 * Q2)%type.

Definition XCtoC (a : XC) : C := (Q2toR (fst a), Q2toR (snd a)).

Definition XCadd (a b : XC) : XC := (Q2add (fst a) (fst b), Q2add (snd a) (snd b)).
Definition XCmul (a b : XC) : XC :=
  (Q2sub (Q2mul (fst a) (fst b)) (Q2mul (snd a) (snd b)),
   Q2add (Q2mul (fst a) (snd b)) (Q2mul (snd a) (fst b))).
Definition XCconj (a : XC) : XC := (fst a, Q2neg (snd a)).
Definition XCnorm2 (a : XC) : Q2 :=
  Q2add (Q2mul (fst a) (fst a)) (Q2mul (snd a) (snd a)).

Definition Q2zero : Q2 := (0 # 1, 0 # 1)%Q.
Definition XC0 : XC := (Q2zero, Q2zero).
Definition XC1 : XC := ((1 # 1, 0 # 1)%Q, Q2zero).
Definition XCi : XC := (Q2zero, (1 # 1, 0 # 1)%Q).
(** [1 / sqrt 2 = sqrt 2 / 2] *)
Definition XCinv_sqrt2 : XC := ((0 # 1, 1 # 2)%Q, Q2zero).

Record XMatrix2 : Type := mkXM2 { x00 : XC; x01 : XC; x10 : XC; x11 : XC }.

Definition XMtoM (M : XMatrix2) : Matrix2 :=
  mkM2 (XCtoC (x00 M)) (XCtoC (x01 M)) (XCtoC (x10 M)) (XCtoC (x11 M)).

Definition XMadjoint (M : XMatrix2) : XMatrix2 :=
  mkXM2 (XCconj (x00 M)) (XCconj (x10 M)) (XCconj (x01 M)) (XCconj (x11 M)).

(** The exact matrix of an operation, for the gates that have one. *)
Fixpoint xmatrix (op : qml.Operation) : option XMatrix2 :=
  match op with
  | qml.PauliX _ => Some (mkXM2 XC0 XC1 XC1 XC0)
  | qml.PauliZ _ => Some (mkXM2 XC1 XC0 XC0 (XCconj (Q2neg (fst XC1), Q2zero)))
  | qml.Hadamard _ =>
      Some (mkXM2 XCinv_sqrt2 XCinv_sqrt2 XCinv_sqrt2
                  (Q2neg (fst XCinv_sqrt2), Q2zero))
  | qml.S _ => Some (mkXM2 XC1 XC0 XC0 XCi)
  | qml.T _ => Some (mkXM2 XC1 XC0 XC0 (fst XCinv_sqrt2, fst XCinv_sqrt2))
  | qml.RZ _ _ => None
  | qml.QubitUnitary _ _ => None
  | qml.adjoint op' =>
      match xmatrix op' with
      | Some M => Some (XMadjoint M)
      | None => None
      end
  end.

Fixpoint xtensor (n : nat) : Type :=
  match n with
  | O => XC
  | Datatypes.S k => (xtensor k * xtensor k)%type
  end.

Fixpoint xinterp (n : nat) : xtensor n -> tensor n :=
  match n with
  | O => fun a => XCtoC a
  | Datatypes.S k => fun a => (xinterp k (fst a), xinterp k (snd a))
  end.

Fixpoint xtzero (n : nat) : xtensor n :=
  match n with
  | O => XC0
  | Datatypes.S k => (xtzero k, xtzero k)
  end.

Fixpoint xbasis0 (n : nat) : xtensor n :=
  match n with
  | O => XC1
  | Datatypes.S k => (xbasis0 k, xtzero k)
  end.

Fixpoint xtadd (n : nat) : xtensor n -> xtensor n -> xtensor n :=
  match n with
  | O => fun a b => XCadd a b
  | Datatypes.S k => fun a b => (xtadd k (fst a) (fst b), xtadd k (snd a) (snd b))
  end.

Fixpoint xtscale (n : nat) (c : XC) : xtensor n -> xtensor n :=
  match n with
  | O => fun a => XCmul c a
  | Datatypes.S k => fun a => (xtscale k c (fst a), xtscale k c (snd a))
  end.

Fixpoint xflatten (n : nat) : xtensor n -> list XC :=
  match n with
  | O => fun a => [a]
  | Datatypes.S k => fun a => xflatten k (fst a) ++ xflatten k (snd a)
  end.

Fixpoint xapply_matrix (M : XMatrix2) (n w : nat) : xtensor n -> option (xtensor n) :=
  match n with
  | O => fun _ => None
  | Datatypes.S k => fun a =>
      match w with
      | O => Some (xtadd k (xtscale k (x00 M) (fst a)) (xtscale k (x01 M) (snd a)),
                   xtadd k (xtscale k (x10 M) (fst a)) (xtscale k (x11 M) (snd a)))
      | Datatypes.S w' =>
          match xapply_matrix M k w' (fst a), xapply_matrix M k w' (snd a) with
          | Some lo, Some hi => Some (lo, hi)
          | _, _ => None
          end
      end
  end.

Fixpoint xapply_operations (n : nat) (ops : list qml.Operation) (psi : xtensor n)
  : option (xtensor n) :=
  match ops with
  | [] => Some psi
  | op :: rest =>
      match xmatrix op with
      | Some M =>
          match xapply_matrix M n (qml.wire op) psi with
          | Some psi' => xapply_operations n rest psi'
          | None => None
          end
      | None => None
      end
  end.

(** * Properties *)

(** ** Arithmetic of the constants *)

Lemma sqrt2_neq_0 : sqrt 2 <> 0.
Proof. apply Rgt_not_eq, sqrt_lt_R0; lra. Qed.

Lemma inv_sqrt2_sqr : qml.INV_SQRT2 * qml.INV_SQRT2 = 1 / 2.
Proof.
  unfold qml.INV_SQRT2.
  replace (1 / sqrt 2 * (1 / sqrt 2)) with (1 / (sqrt 2 * sqrt 2))
    by (field; apply sqrt2_neq_0).
  rewrite sqrt_sqrt by lra. reflexivity.
Qed.

Lemma cos_sin_sqr (t : R) : cos t * cos t + sin t * sin t = 1.
Proof. generalize (sin2_cos2 t); unfold Rsqr; lra. Qed.

Lemma Cnorm2_Cexp (t : R) : Cnorm2 (Cexp t) = 1.
Proof. unfold Cnorm2, Cexp; simpl. apply cos_sin_sqr. Qed.

Lemma Cnorm2_nonneg (a : C) : 0 <= Cnorm2 a.
Proof. unfold Cnorm2; nra. Qed.

Lemma Cnorm2_Cmult (a b : C) : Cnorm2 (Cmult a b) = Cnorm2 a * Cnorm2 b.
Proof. unfold Cnorm2, Cmult; simpl; ring. Qed.

(** ** Unitarity of the gate matrices *)

Ltac matrix_eq :=
  unfold unitary, Mmult, Madjoint, I2, C1, C0, Ci, RtoC, Cplus, Cmult, Cconj, Cexp;
  simpl.

Lemma Madjoint_involutive (A : Matrix2) : Madjoint (Madjoint A) = A.
Proof.
  destruct A as [[a1 a2] [b1 b2] [c1 c2] [d1 d2]].
  unfold Madjoint, Cconj; simpl. rewrite !Ropp_involutive. reflexivity.
Qed.

Lemma unitary_Madjoint (A : Matrix2) : unitary A -> unitary (Madjoint A).
Proof.
  intros [H1 H2]. split; rewrite Madjoint_involutive; assumption.
Qed.

Lemma unitary_PauliX w : unitary (qml.matrix (qml.PauliX w)).
Proof. split; matrix_eq; repeat f_equal; lra. Qed.

Lemma unitary_PauliZ w : unitary (qml.matrix (qml.PauliZ w)).
Proof. split; matrix_eq; repeat f_equal; lra. Qed.

Lemma unitary_Hadamard w : unitary (qml.matrix (qml.Hadamard w)).
Proof.
  pose proof inv_sqrt2_sqr as Hs.
  split; matrix_eq; repeat f_equal; lra.
Qed.

Lemma unitary_S w : unitary (qml.matrix (qml.S w)).
Proof. split; matrix_eq; repeat f_equal; lra. Qed.

Lemma unitary_T w : unitary (qml.matrix (qml.T w)).
Proof.
  pose proof (cos_sin_sqr (PI / 4)) as Ht.
  split; matrix_eq; repeat f_equal; lra.
Qed.

Lemma unitary_RZ phi w : unitary (qml.matrix (qml.RZ phi w)).
Proof.
  pose proof (cos_sin_sqr (phi / 2)) as Hp.
  pose proof (cos_sin_sqr (- phi / 2)) as Hm.
  split; matrix_eq; repeat f_equal; lra.
Qed.

Lemma unitary_U : unitary I4.U.
Proof.
  pose proof inv_sqrt2_sqr as Hs. unfold qml.INV_SQRT2 in Hs.
  assert (Hn : -1 / sqrt 2 = - (1 / sqrt 2)) by (field; apply sqrt2_neq_0).
  split; unfold I4.U; matrix_eq; rewrite Hn; repeat f_equal; lra.
Qed.

Lemma unitary_matrix (op : qml.Operation) :
  well_formed_op op -> unitary (qml.matrix op).
Proof.
  induction op; intros H.
  - apply unitary_PauliX.
  - apply unitary_PauliZ.
  - apply unitary_Hadamard.
  - apply unitary_S.
  - apply unitary_T.
  - apply unitary_RZ.
  - exact H.
  - simpl. apply unitary_Madjoint, IHop, H.
Qed.

(** ** Norm preservation *)

Lemma unitary_columns (M : Matrix2) :
  unitary M ->
  Cnorm2 (m00 M) + Cnorm2 (m10 M) = 1 /\
  Cnorm2 (m01 M) + Cnorm2 (m11 M) = 1 /\
  fst (m00 M) * fst (m01 M) + snd (m00 M) * snd (m01 M)
    + fst (m10 M) * fst (m11 M) + snd (m10 M) * snd (m11 M) = 0 /\
  fst (m00 M) * snd (m01 M) - snd (m00 M) * fst (m01 M)
    + fst (m10 M) * snd (m11 M) - snd (m10 M) * fst (m11 M) = 0.
Proof.
  destruct M as [[a1 a2] [b1 b2] [c1 c2] [d1 d2]].
  unfold unitary, Mmult, Madjoint, I2, C1, C0, RtoC, Cplus, Cmult, Cconj, Cnorm2; simpl.
  intros [H _]. injection H as E1 E2 E3 E4 E5 E6 E7 E8.
  repeat split; lra.
Qed.

Lemma norm2_combination (n : nat) (a b : C) (x y : tensor n) :
  norm2 n (tadd n (tscale n a x) (tscale n b y))
  = Cnorm2 a * norm2 n x + Cnorm2 b * norm2 n y
    + 2 * (fst a * fst b + snd a * snd b) * dot_re n x y
    - 2 * (fst a * snd b - snd a * fst b) * dot_im n x y.
Proof.
  induction n as [|k IH].
  - destruct a as [a1 a2], b as [b1 b2], x as [x1 x2], y as [y1 y2].
    simpl. unfold Cnorm2, Cplus, Cmult; simpl. ring.
  - destruct x as [x1 x2], y as [y1 y2]; simpl.
    rewrite (IH x1 y1), (IH x2 y2). ring.
Qed.

Lemma norm2_mix (n : nat) (M : Matrix2) (x y : tensor n) :
  unitary M ->
  norm2 n (tadd n (tscale n (m00 M) x) (tscale n (m01 M) y))
  + norm2 n (tadd n (tscale n (m10 M) x) (tscale n (m11 M) y))
  = norm2 n x + norm2 n y.
Proof.
  intros HU. destruct (unitary_columns M HU) as (H1 & H2 & H3 & H4).
  rewrite !norm2_combination.
  transitivity
    ((Cnorm2 (m00 M) + Cnorm2 (m10 M)) * norm2 n x
     + (Cnorm2 (m01 M) + Cnorm2 (m11 M)) * norm2 n y
     + 2 * (fst (m00 M) * fst (m01 M) + snd (m00 M) * snd (m01 M)
            + fst (m10 M) * fst (m11 M) + snd (m10 M) * snd (m11 M)) * dot_re n x y
     - 2 * (fst (m00 M) * snd (m01 M) - snd (m00 M) * fst (m01 M)
            + fst (m10 M) * snd (m11 M) - snd (m10 M) * fst (m11 M)) * dot_im n x y).
  - ring.
  - rewrite H1, H2, H3, H4. ring.
Qed.

Lemma apply_matrix_norm2 (M : Matrix2) :
  unitary M ->
  forall n w (psi psi' : tensor n),
    apply_matrix M n w psi = Some psi' -> norm2 n psi' = norm2 n psi.
Proof.
  intros HU. induction n as [|k IH]; intros w psi psi' H.
  - discriminate.
  - destruct psi as [lo hi]. destruct w as [|w']; simpl in H.
    + injection H as <-. simpl. apply norm2_mix, HU.
    + destruct (apply_matrix M k w' lo) as [lo'|] eqn:El; [|discriminate].
      destruct (apply_matrix M k w' hi) as [hi'|] eqn:Eh; [|discriminate].
      injection H as <-. simpl.
      rewrite (IH _ _ _ El), (IH _ _ _ Eh). reflexivity.
Qed.

(** A wire on the device can always be acted on. *)
Lemma apply_matrix_defined (M : Matrix2) :
  forall n w (psi : tensor n),
    (w < n)%nat -> exists psi', apply_matrix M n w psi = Some psi'.
Proof.
  induction n as [|k IH]; intros w psi Hw.
  - lia.
  - destruct psi as [lo hi]. destruct w as [|w']; simpl.
    + eexists; reflexivity.
    + destruct (IH w' lo) as [lo' El]; [lia|].
      destruct (IH w' hi) as [hi' Eh]; [lia|].
      rewrite El, Eh. eexists; reflexivity.
Qed.

Lemma apply_operations_norm2 (n : nat) (ops : list qml.Operation) :
  Forall well_formed_op ops ->
  forall psi psi' : tensor n,
    qml.apply_operations n ops psi = Some psi' -> norm2 n psi' = norm2 n psi.
Proof.
  induction 1 as [|op rest Hop _ IH]; intros psi psi' H; simpl in H.
  - injection H as <-. reflexivity.
  - destruct (apply_matrix (qml.matrix op) n (qml.wire op) psi) as [phi|] eqn:E;
      [|discriminate].
    rewrite (IH _ _ H).
    eapply apply_matrix_norm2; [apply unitary_matrix, Hop | exact E].
Qed.

Lemma apply_operations_defined (n : nat) (ops : list qml.Operation) :
  Forall (fun op => (qml.wire op < n)%nat) ops ->
  forall psi : tensor n, exists psi', qml.apply_operations n ops psi = Some psi'.
Proof.
  induction 1 as [|op rest Hop _ IH]; intros psi; simpl.
  - eexists; reflexivity.
  - destruct (apply_matrix_defined (qml.matrix op) n (qml.wire op) psi Hop) as [phi E].
    rewrite E. apply IH.
Qed.

Lemma norm2_tzero (n : nat) : norm2 n (tzero n) = 0.
Proof.
  induction n as [|k IH]; simpl.
  - unfold Cnorm2, C0, RtoC; simpl; ring.
  - rewrite IH; ring.
Qed.

Lemma norm2_basis0 (n : nat) : norm2 n (basis0 n) = 1.
Proof.
  induction n as [|k IH]; simpl.
  - unfold Cnorm2, C1, RtoC; simpl; ring.
  - rewrite IH, norm2_tzero; ring.
Qed.

Lemma Rsum_app (l1 l2 : list R) : Rsum (l1 ++ l2) = Rsum l1 + Rsum l2.
Proof.
  induction l1 as [|x l1 IH]; simpl.
  - ring.
  - unfold Rsum in *; simpl. rewrite IH. ring.
Qed.

Lemma norm2_flatten (n : nat) (psi : tensor n) :
  Rsum (map Cnorm2 (flatten n psi)) = norm2 n psi.
Proof.
  induction n as [|k IH]; simpl.
  - unfold Rsum; simpl; ring.
  - rewrite map_app, Rsum_app, !IH. reflexivity.
Qed.

Lemma length_flatten (n : nat) (psi : tensor n) :
  List.length (flatten n psi) = (2 ^ n)%nat.
Proof.
  induction n as [|k IH]; simpl.
  - reflexivity.
  - rewrite length_app, !IH. lia.
Qed.

(** ** Runs of well-formed tapes *)

Lemma execute_state (dev : qml.Device) (ops : list qml.Operation) :
  Forall well_formed_op ops ->
  Forall (on_device (qml.num_wires dev)) ops ->
  exists v, qml.execute dev (qml.mkTape ops qml.state) = Some (qml.StateVector v)
            /\ Rsum (map Cnorm2 v) = 1
            /\ List.length v = (2 ^ qml.num_wires dev)%nat.
Proof.
  intros Hwf Hw. unfold qml.execute; simpl.
  destruct (apply_operations_defined _ ops Hw (basis0 (qml.num_wires dev))) as [psi E].
  rewrite E. exists (flatten _ psi). split; [reflexivity|]. split.
  - rewrite norm2_flatten, (apply_operations_norm2 _ ops Hwf _ _ E).
    apply norm2_basis0.
  - apply length_flatten.
Qed.

Lemma Rsum_nonneg (l : list R) : Forall (fun x => 0 <= x) l -> 0 <= Rsum l.
Proof.
  induction 1 as [|x l Hx _ IH]; unfold Rsum in *; simpl; lra.
Qed.

Lemma marginal_nonneg (n : nat) (ws : list nat) (amps : list C) (k : nat) :
  0 <= marginal n ws amps k.
Proof.
  unfold marginal. apply Rsum_nonneg.
  apply Forall_forall. intros x Hx.
  apply in_map_iff in Hx as (i & <- & _). apply Cnorm2_nonneg.
Qed.

(** On three wires, [probs(wires=[0, 1, 2])] lists the squared moduli of the
    eight amplitudes in order. *)
Lemma marginal_all3 (psi : tensor 3) :
  map (marginal 3 [0; 1; 2]%nat (flatten 3 psi)) (seq 0 8)
  = map (fun a => Cnorm2 a + 0) (flatten 3 psi).
Proof.
  destruct psi as [[[a0 a1] [a2 a3]] [[a4 a5] [a6 a7]]].
  reflexivity.
Qed.

Lemma Rsum_map_plus0 (l : list C) :
  Rsum (map (fun a => Cnorm2 a + 0) l) = Rsum (map Cnorm2 l).
Proof.
  induction l as [|a l IH]; unfold Rsum in *; simpl; [reflexivity|].
  rewrite IH. ring.
Qed.

Lemma execute_probs3 (ops : list qml.Operation) :
  Forall well_formed_op ops ->
  Forall (on_device 3) ops ->
  exists p, qml.execute (qml.device 3) (qml.mkTape ops (qml.probs [0; 1; 2]%nat))
            = Some (qml.Probabilities p)
            /\ Forall (fun x => 0 <= x) p
            /\ Rsum p = 1
            /\ List.length p = 8%nat.
Proof.
  intros Hwf Hw. unfold qml.execute; simpl qml.num_wires; simpl qml.operations.
  destruct (apply_operations_defined 3 ops Hw (basis0 3)) as [psi E].
  rewrite E. unfold qml.measure, qml.measurement.
  change (wires_ok 3 [0; 1; 2]%nat) with true. cbv iota.
  eexists. split; [reflexivity|]. split; [|split].
  - apply Forall_forall. intros x Hx.
    apply in_map_iff in Hx as (k & <- & _). apply marginal_nonneg.
  - change (2 ^ List.length [0; 1; 2])%nat with 8%nat.
    rewrite marginal_all3, Rsum_map_plus0, norm2_flatten.
    rewrite (apply_operations_norm2 _ ops Hwf _ _ E). apply norm2_basis0.
  - rewrite length_map, length_seq. reflexivity.
Qed.

(** ** The tapes of the repository are well formed *)

Lemma func_well_formed (q : QNode) (a : Args q) :
  Forall well_formed_op (qml.operations (func q a)).
Proof.
  destruct q; simpl in a |- *;
    try destruct (a =? 1)%Z; simpl;
    repeat (constructor; try exact I; try exact unitary_U).
Qed.

Lemma func_on_device (q : QNode) (a : Args q) :
  Forall (on_device (qml.num_wires (device_of q))) (qml.operations (func q a)).
Proof.
  destruct q; simpl in a |- *;
    try destruct (a =? 1)%Z; simpl;
    repeat (constructor; try (unfold on_device; simpl; lia)).
Qed.

Lemma func_measurement (q : QNode) (a : Args q) :
  qml.measurement (func q a)
  = match q with
    | Q_just_enough_ts => qml.probs [0; 1; 2]%nat
    | _ => qml.state
    end.
Proof. destruct q; reflexivity. Qed.

Lemma tape_eta (t : qml.Tape) :
  t = qml.mkTape (qml.operations t) (qml.measurement t).
Proof. destruct t; reflexivity. Qed.


(** Every qnode but [just_enough_ts] returns a normalised vector of two
    amplitudes; [just_enough_ts] returns eight probabilities. *)
Lemma call_state (q : QNode) (a : Args q) :
  q <> Q_just_enough_ts ->
  exists v, call q a = Some (qml.StateVector v)
            /\ Rsum (map Cnorm2 v) = 1
            /\ List.length v = 2%nat.
Proof.
  intros Hq.
  pose proof (func_well_formed q a) as Hwf.
  pose proof (func_on_device q a) as Hdev.
  pose proof (func_measurement q a) as Hm.
  unfold call, qml.qnode. rewrite (tape_eta (func q a)), Hm.
  destruct q; try (exact (execute_state _ _ Hwf Hdev)).
  contradiction Hq; reflexivity.
Qed.

Lemma call_probs (a : Args Q_just_enough_ts) :
  exists p, call Q_just_enough_ts a = Some (qml.Probabilities p)
            /\ Forall (fun x => 0 <= x) p
            /\ Rsum p = 1
            /\ List.length p = 8%nat.
Proof.
  exact (execute_probs3 _ (func_well_formed Q_just_enough_ts a)
                        (func_on_device Q_just_enough_ts a)).
Qed.

Lemma QNode_cases (q : QNode) : q = Q_just_enough_ts \/ q <> Q_just_enough_ts.
Proof. destruct q; (left; reflexivity) || (right; discriminate). Qed.

(** C3: whatever qnode is called with whatever argument, every gate matrix
    on its tape is unitary, the call returns, and the result is normalised:
    the squared moduli of a state vector sum to 1; the probabilities of
    [just_enough_ts] are nonnegative and sum to 1. *)
Theorem results_normalized (q : QNode) (a : Args q) :
  Forall (fun op => unitary (qml.matrix op)) (qml.operations (func q a))
  /\ exists r : qml.Result,
       call q a = Some r
       /\ match r with
          | qml.StateVector v => Rsum (map Cnorm2 v) = 1
          | qml.Probabilities p => Forall (fun x => 0 <= x) p /\ Rsum p = 1
          end.
Proof.
  split.
  - eapply Forall_impl; [|apply func_well_formed]. apply unitary_matrix.
  - destruct (QNode_cases q) as [-> | Hq].
    + destruct (call_probs a) as (p & E & Hpos & Hsum & _).
      exists (qml.Probabilities p). split; [exact E | split; assumption].
    + destruct (call_state q a Hq) as (v & E & Hn & _).
      exists (qml.StateVector v). split; [exact E | exact Hn].
Qed.

(** C8: every call returns a result; for [just_enough_ts] it is a vector of
    8 probabilities (three wires), for each of the other seven qnodes a state
    vector of 2 complex amplitudes (one wire). *)
Theorem result_kinds (q : QNode) (a : Args q) :
  exists r : qml.Result,
    call q a = Some r
    /\ match q with
       | Q_just_enough_ts =>
           exists p, r = qml.Probabilities p /\ List.length p = 8%nat
       | _ =>
           exists v, r = qml.StateVector v /\ List.length v = 2%nat
       end.
Proof.
  destruct (QNode_cases q) as [-> | Hq].
  - destruct (call_probs a) as (p & E & _ & _ & Hl).
    exists (qml.Probabilities p). split; [exact E|]. exists p. split; [reflexivity | exact Hl].
  - destruct (call_state q a Hq) as (v & E & _ & Hl).
    exists (qml.StateVector v). split; [exact E|].
    destruct q; try (exists v; split; [reflexivity | exact Hl]).
    contradiction Hq; reflexivity.
Qed.

(** C4: a qnode that takes the flag queues a Pauli-X on wire 0 exactly when
    the flag is 1, then a sequence of gates that does not depend on the flag,
    and reads out the state; so its tapes for flag 1 and flag 0 differ by the
    leading Pauli-X only. *)
Theorem flag_scheme (q : QNode) (f : Z -> qml.Tape) :
  flag_func q = Some f ->
  follows_flag_scheme f
  /\ qml.operations (f 1%Z) = qml.PauliX 0 :: qml.operations (f 0%Z)
  /\ qml.measurement (f 1%Z) = qml.measurement (f 0%Z).
Proof.
  destruct q; simpl; intros H; try discriminate; injection H as <-.
  - split; [|split; reflexivity].
    exists [qml.QubitUnitary I4.U 0]. intros state.
    unfold I4.varied_initial_state_func. destruct (state =? 1)%Z; reflexivity.
  - split; [|split; reflexivity].
    exists [qml.Hadamard 0]. intros state. reflexivity.
  - split; [|split; reflexivity].
    exists [qml.Hadamard 0; qml.PauliX 0; qml.Hadamard 0]. intros state. reflexivity.
Qed.

(** C4 at [apply_hxh]. *)
Lemma flag_scheme_witness :
  flag_func Q_apply_hxh = Some I4.apply_hxh_func
  /\ follows_flag_scheme I4.apply_hxh_func.
Proof.
  split; [reflexivity|].
  apply (flag_scheme Q_apply_hxh I4.apply_hxh_func). reflexivity.
Defined.

(** Which qnodes [flag_func] covers. *)
Lemma flag_func_defined (q : QNode) :
  takes_flag q = true <-> exists f, flag_func q = Some f.
Proof.
  destruct q; simpl; split; intros H; try discriminate; try reflexivity;
    try (eexists; reflexivity); destruct H as [f H]; discriminate.
Qed.

(** ** The flag and the matrix [U] *)

Lemma U_is_Hadamard : I4.U = qml.matrix (qml.Hadamard 0).
Proof.
  unfold I4.U; simpl. unfold qml.INV_SQRT2.
  replace (-1 / sqrt 2) with (- (1 / sqrt 2)) by (field; apply sqrt2_neq_0).
  reflexivity.
Qed.

(** Only the matrix and the wire of an operation reach the register. *)
Lemma apply_operations_ext (n : nat) (ops ops' : list qml.Operation) :
  map qml.matrix ops = map qml.matrix ops' ->
  map qml.wire ops = map qml.wire ops' ->
  forall psi : tensor n,
    qml.apply_operations n ops psi = qml.apply_operations n ops' psi.
Proof.
  revert ops'. induction ops as [|op ops IH]; intros [|op' ops'] Hm Hw psi;
    try discriminate; [reflexivity|].
  simpl in *. injection Hm as Hm1 Hm2. injection Hw as Hw1 Hw2.
  rewrite Hm1, Hw1.
  destruct (apply_matrix (qml.matrix op') n (qml.wire op') psi); [|reflexivity].
  apply IH; assumption.
Qed.

(** C5: the matrix [U] is the Hadamard matrix, so for every flag (0 and 1
    in particular) [varied_initial_state] and [apply_hadamard_to_state]
    return the same state vector. *)
Theorem varied_initial_state_is_hadamard (state : Z) :
  I4.U = qml.matrix (qml.Hadamard 0)
  /\ I4.varied_initial_state state = I4.apply_hadamard_to_state state
  /\ exists v, I4.varied_initial_state state = Some (qml.StateVector v).
Proof.
  split; [apply U_is_Hadamard|]. split.
  - unfold I4.varied_initial_state, I4.apply_hadamard_to_state, qml.qnode, qml.execute.
    simpl qml.operations. simpl qml.measurement.
    rewrite (apply_operations_ext _
               (if (state =? 1)%Z
                then [qml.PauliX 0; qml.QubitUnitary I4.U 0]
                else [qml.QubitUnitary I4.U 0])
               ((if (state =? 1)%Z then [qml.PauliX 0] else []) ++ [qml.Hadamard 0])).
    + reflexivity.
    + destruct (state =? 1)%Z; simpl; rewrite U_is_Hadamard; reflexivity.
    + destruct (state =? 1)%Z; reflexivity.
  - assert (Hq : Q_varied_initial_state <> Q_just_enough_ts) by discriminate.
    destruct (call_state Q_varied_initial_state state Hq) as (v & E & _).
    exists v. exact E.
Qed.

(** C9 as stated fails: no qnode is the only one whose parameter list is the
    flag. *)
Lemma not_exactly_one_flag_qnode :
  ~ (exists q : QNode,
        params q = flag_param
        /\ forall q' : QNode, q' <> q -> params q' = no_params).
Proof.
  intros (q & Hq & Hothers).
  destruct q; try discriminate Hq.
  - specialize (Hothers Q_apply_hxh). discriminate Hothers. discriminate.
  - specialize (Hothers Q_apply_hxh). discriminate Hothers. discriminate.
  - specialize (Hothers Q_varied_initial_state). discriminate Hothers. discriminate.
Qed.

(** C9, amended: of the eight qnodes exactly three take the flag,
    [varied_initial_state], [apply_hadamard_to_state] and [apply_hxh]; the
    other five take no parameter. *)
Theorem three_flag_qnodes :
  filter takes_flag all_qnodes
  = [Q_varied_initial_state; Q_apply_hadamard_to_state; Q_apply_hxh]
  /\ filter (fun q => negb (takes_flag q)) all_qnodes
     = [Q_apply_hadamard; Q_apply_z_to_plus; Q_fake_z; Q_many_rotations;
        Q_just_enough_ts]
  /\ (forall q : QNode, In q all_qnodes)
  /\ (forall q : QNode,
        params q = flag_param <-> exists f : Z -> qml.Tape, flag_func q = Some f).
Proof.
  split; [reflexivity|]. split; [reflexivity|]. split.
  - intros q; destruct q; simpl; tauto.
  - intros q; destruct q; simpl; split; intros H; try discriminate;
      try reflexivity; try (eexists; reflexivity); destruct H as [f H]; discriminate.
Qed.

(** C10: for every integer flag other than 1 (2 or -1 as well as 0) each of
    the three flag qnodes queues its fixed sequence with no Pauli-X in front,
    the tape it queues for 0, and returns what it returns for 0. *)
Theorem only_one_flips (state : Z) :
  state <> 1%Z ->
  (qml.operations (I4.varied_initial_state_func state) = [qml.QubitUnitary I4.U 0]
   /\ I4.varied_initial_state_func state = I4.varied_initial_state_func 0
   /\ I4.varied_initial_state state = I4.varied_initial_state 0)
  /\ (qml.operations (I4.apply_hadamard_to_state_func state) = [qml.Hadamard 0]
      /\ I4.apply_hadamard_to_state_func state = I4.apply_hadamard_to_state_func 0
      /\ I4.apply_hadamard_to_state state = I4.apply_hadamard_to_state 0)
  /\ (qml.operations (I4.apply_hxh_func state)
      = [qml.Hadamard 0; qml.PauliX 0; qml.Hadamard 0]
      /\ I4.apply_hxh_func state = I4.apply_hxh_func 0
      /\ I4.apply_hxh state = I4.apply_hxh 0).
Proof.
  intros H. apply Z.eqb_neq in H.
  unfold I4.varied_initial_state, I4.apply_hadamard_to_state, I4.apply_hxh,
    I4.varied_initial_state_func, I4.apply_hadamard_to_state_func, I4.apply_hxh_func.
  rewrite H. change (0 =? 1)%Z with false. cbv iota.
  repeat split; reflexivity.
Qed.

(** C10 at flag 2. *)
Lemma only_one_flips_witness :
  2%Z <> 1%Z /\ I4.apply_hxh 2 = I4.apply_hxh 0.
Proof.
  assert (H : 2%Z <> 1%Z) by discriminate.
  split; [exact H|]. apply (only_one_flips 2 H).
Defined.

(** ** One-wire circuits, evaluated *)

Ltac run_circuit :=
  unfold qml.qnode, qml.execute; simpl;
  unfold Cplus, Cmult, Cconj, Copp, Cexp, C0, C1, Ci, RtoC; simpl.

(** Split an equation between results into equations between real numbers. *)
Ltac amplitudes :=
  repeat match goal with
         | |- Some _ = Some _ => apply f_equal
         | |- qml.StateVector _ = qml.StateVector _ => apply f_equal
         | |- cons _ _ = cons _ _ => apply f_equal2
         | |- pair _ _ = pair _ _ => apply f_equal2
         | |- nil = nil => reflexivity
         end.

Lemma Cmult_1_l (a : C) : Cmult C1 a = a.
Proof. destruct a as [x y]. unfold Cmult, C1, RtoC; simpl. f_equal; ring. Qed.

Lemma equal_up_to_phase_refl (v : list C) : equal_up_to_phase v v.
Proof.
  exists C1. split.
  - unfold Cnorm2, C1, RtoC; simpl; ring.
  - induction v as [|a v IH]; simpl; [reflexivity|].
    rewrite Cmult_1_l, <- IH. reflexivity.
Qed.

Lemma hxh_matrix :
  Mmult (qml.matrix (qml.Hadamard 0))
        (Mmult (qml.matrix (qml.PauliX 0)) (qml.matrix (qml.Hadamard 0)))
  = qml.matrix (qml.PauliZ 0).
Proof.
  pose proof inv_sqrt2_sqr as Hs.
  simpl. matrix_eq. repeat f_equal; lra.
Qed.

Lemma apply_hxh_0 : I4.apply_hxh 0 = Some (qml.StateVector ket0).
Proof.
  pose proof inv_sqrt2_sqr as Hs.
  unfold I4.apply_hxh, ket0. run_circuit. amplitudes; lra.
Qed.

Lemma apply_hxh_1 : I4.apply_hxh 1 = Some (qml.StateVector (map Copp ket1)).
Proof.
  pose proof inv_sqrt2_sqr as Hs.
  unfold I4.apply_hxh, ket1. run_circuit. amplitudes; lra.
Qed.

Lemma pauli_z_on_0 : qml.qnode I4.dev (pauli_z_on_flag 0) = Some (qml.StateVector ket0).
Proof. unfold ket0. run_circuit. amplitudes; lra. Qed.

Lemma pauli_z_on_1 :
  qml.qnode I4.dev (pauli_z_on_flag 1) = Some (qml.StateVector (map Copp ket1)).
Proof. unfold ket1. run_circuit. amplitudes; lra. Qed.

Lemma apply_matrix_I2 (psi : tensor 1) : apply_matrix I2 1 0 psi = Some psi.
Proof.
  destruct psi as [[a1 a2] [b1 b2]]. simpl.
  unfold Cplus, Cmult, C0, C1, RtoC; simpl. amplitudes; ring.
Qed.

Lemma apply_matrix_Mmult (A B : Matrix2) (psi psi' : tensor 1) :
  apply_matrix B 1 0 psi = Some psi' ->
  apply_matrix A 1 0 psi' = apply_matrix (Mmult A B) 1 0 psi.
Proof.
  destruct psi as [[a1 a2] [b1 b2]].
  destruct A as [[p1 p2] [q1 q2] [r1 r2] [s1 s2]].
  destruct B as [[t1 t2] [u1 u2] [v1 v2] [w1 w2]].
  simpl. intros H. injection H as <-. simpl.
  unfold Cplus, Cmult; simpl. amplitudes; ring.
Qed.

Lemma run_as_matrix (ops : list qml.Operation) :
  Forall (fun op => qml.wire op = 0%nat) ops ->
  forall (acc : Matrix2) (psi0 psi : tensor 1),
    apply_matrix acc 1 0 psi0 = Some psi ->
    qml.apply_operations 1 ops psi
    = apply_matrix (fold_left (fun acc op => Mmult (qml.matrix op) acc) ops acc) 1 0 psi0.
Proof.
  induction 1 as [|op rest Hw _ IH]; intros acc psi0 psi H.
  - simpl. symmetry. exact H.
  - cbn [qml.apply_operations fold_left]. rewrite Hw.
    destruct (apply_matrix (qml.matrix op) 1 0 psi) as [phi|] eqn:E.
    + apply IH. rewrite <- (apply_matrix_Mmult _ _ _ _ H). exact E.
    + destruct psi as [a b]. discriminate E.
Qed.

Lemma run_tape_matrix (ops : list qml.Operation) (psi : tensor 1) :
  Forall (fun op => qml.wire op = 0%nat) ops ->
  qml.apply_operations 1 ops psi = apply_matrix (tape_matrix ops) 1 0 psi.
Proof.
  intros Hw. apply (run_as_matrix ops Hw I2 psi psi), apply_matrix_I2.
Qed.

Lemma Mmult_I2_r (A : Matrix2) : Mmult A I2 = A.
Proof.
  destruct A as [[p1 p2] [q1 q2] [r1 r2] [s1 s2]].
  matrix_eq. apply f_equal4; amplitudes; ring.
Qed.

Lemma Mmult_assoc (A B D : Matrix2) : Mmult A (Mmult B D) = Mmult (Mmult A B) D.
Proof.
  destruct A as [[p1 p2] [q1 q2] [r1 r2] [s1 s2]].
  destruct B as [[t1 t2] [u1 u2] [v1 v2] [w1 w2]].
  destruct D as [[e1 e2] [f1 f2] [g1 g2] [h1 h2]].
  matrix_eq. apply f_equal4; amplitudes; ring.
Qed.

Lemma apply_hxh_tape_matrix (state : Z) :
  tape_matrix (qml.operations (I4.apply_hxh_func state))
  = tape_matrix (qml.operations (pauli_z_on_flag state)).
Proof.
  unfold I4.apply_hxh_func, pauli_z_on_flag, tape_matrix.
  destruct (state =? 1)%Z; cbn [qml.operations app fold_left].
  - rewrite !Mmult_I2_r, !Mmult_assoc.
    rewrite <- (Mmult_assoc (qml.matrix (qml.Hadamard 0))), hxh_matrix. reflexivity.
  - rewrite !Mmult_I2_r, hxh_matrix. reflexivity.
Qed.

(** C1: on every one-wire register the tape of [apply_hxh] acts as the same
    flag preparation followed by Pauli-Z, so Hadamard, Pauli-X, Hadamard acts
    as Pauli-Z; and one phase factor of modulus 1, the same for both flags,
    turns Pauli-Z of the prepared basis state into the state [apply_hxh]
    returns: |0> for flag 0 and -|1> for flag 1. *)
Theorem apply_hxh_is_pauli_z :
  (forall (state : Z) (psi : tensor 1),
      qml.apply_operations 1 (qml.operations (I4.apply_hxh_func state)) psi
      = qml.apply_operations 1 (qml.operations (pauli_z_on_flag state)) psi)
  /\ exists c : C,
       Cnorm2 c = 1
       /\ forall state : Z,
            state = 0%Z \/ state = 1%Z ->
            exists v w : list C,
              I4.apply_hxh state = Some (qml.StateVector v)
              /\ qml.qnode I4.dev (pauli_z_on_flag state) = Some (qml.StateVector w)
              /\ v = map (Cmult c) w
              /\ w = (if (state =? 1)%Z then map Copp ket1 else ket0).
Proof.
  split.
  - intros state psi.
    rewrite !run_tape_matrix, apply_hxh_tape_matrix; [reflexivity| |];
      unfold pauli_z_on_flag, I4.apply_hxh_func; simpl;
      destruct (state =? 1)%Z; simpl; repeat constructor.
  - exists C1. split; [unfold Cnorm2, C1, RtoC; simpl; ring|].
    intros state [-> | ->].
    + exists ket0, ket0. rewrite apply_hxh_0, pauli_z_on_0.
      repeat split. simpl. rewrite !Cmult_1_l. reflexivity.
    + exists (map Copp ket1), (map Copp ket1). rewrite apply_hxh_1, pauli_z_on_1.
      repeat split. simpl. rewrite !Cmult_1_l. reflexivity.
Qed.

(** C1 at flag 1. *)
Lemma apply_hxh_is_pauli_z_witness :
  exists c : C,
    Cnorm2 c = 1
    /\ exists v w : list C,
         I4.apply_hxh 1 = Some (qml.StateVector v)
         /\ qml.qnode I4.dev (pauli_z_on_flag 1) = Some (qml.StateVector w)
         /\ v = map (Cmult c) w.
Proof.
  destruct apply_hxh_is_pauli_z as (_ & c & Hc & H).
  exists c. split; [exact Hc|].
  destruct (H 1%Z (or_intror eq_refl)) as (v & w & Ev & Ew & Hv & _).
  exists v, w. repeat split; assumption.
Defined.

(** ** Calls and the variables of the modules *)

Lemma keeps_globals_ret {A : Type} (x : A) : keeps_globals (ret x).
Proof. intros f f' y H. injection H as _ <-. reflexivity. Qed.

Lemma keeps_globals_bind {A B : Type} (c : Body A) (k : A -> Body B) :
  keeps_globals c -> (forall x, keeps_globals (k x)) -> keeps_globals (bind c k).
Proof.
  intros Hc Hk f f' y H. unfold bind in H.
  destruct (c f) as [[x f1]|] eqn:E; [|discriminate].
  rewrite (Hk x _ _ _ H). exact (Hc _ _ _ E).
Qed.

Lemma keeps_globals_enqueue (op : qml.Operation) : keeps_globals (enqueue op).
Proof. intros f f' y H. injection H as _ <-. reflexivity. Qed.

Lemma keeps_globals_global_U : keeps_globals global_U.
Proof.
  intros f f' y H. unfold global_U in H.
  destruct (g_U (frame_globals f)); [|discriminate]. injection H as _ <-. reflexivity.
Qed.

Lemma keeps_globals_set_local_U (u : Matrix2) : keeps_globals (set_local_U u).
Proof. intros f f' y H. injection H as _ <-. reflexivity. Qed.

Ltac keeps_globals_steps :=
  repeat first
    [ apply keeps_globals_bind; [ | intros ? ]
    | apply keeps_globals_enqueue
    | apply keeps_globals_global_U
    | apply keeps_globals_set_local_U
    | apply keeps_globals_ret ].

(** No body rebinds a variable of its module. *)
Lemma body_keeps_globals (q : QNode) (a : Args q) : keeps_globals (body q a).
Proof.
  destruct q; simpl in a; unfold body;
    [ unfold varied_initial_state_body; destruct (a =? 1)%Z
    | unfold apply_hadamard_body
    | unfold apply_hadamard_to_state_body; destruct (a =? 1)%Z
    | unfold apply_hxh_body; destruct (a =? 1)%Z
    | unfold apply_z_to_plus_body
    | unfold fake_z_body
    | unfold many_rotations_body
    | unfold just_enough_ts_body ];
    keeps_globals_steps.
Qed.

Lemma step_enqueue {A : Type} (op : qml.Operation) (k : unit -> Body A)
      (g : Globals) (l : option Matrix2) (ops : list qml.Operation) :
  bind (enqueue op) k (mkFrame g l ops) = k tt (mkFrame g l (ops ++ [op])).
Proof. reflexivity. Qed.

Lemma step_global_U {A : Type} (k : Matrix2 -> Body A) (u : Matrix2)
      (g : Globals) (l : option Matrix2) (ops : list qml.Operation) :
  g_U g = Some u -> bind global_U k (mkFrame g l ops) = k u (mkFrame g l ops).
Proof. intros H. unfold bind, global_U. cbn [frame_globals]. rewrite H. reflexivity. Qed.

Lemma step_set_local_U {A : Type} (u : Matrix2) (k : unit -> Body A)
      (g : Globals) (l : option Matrix2) (ops : list qml.Operation) :
  bind (set_local_U u) k (mkFrame g l ops) = k tt (mkFrame g (Some u) ops).
Proof. reflexivity. Qed.

Lemma step_ret {A B : Type} (x : A) (k : A -> Body B) (f : Frame) :
  bind (ret x) k f = k x f.
Proof. reflexivity. Qed.

Lemma bind_assoc {A B D : Type} (c : Body A) (k : A -> Body B) (h : B -> Body D)
      (f : Frame) :
  bind (bind c k) h f = bind c (fun x => bind (k x) h) f.
Proof. unfold bind. destruct (c f) as [[x f1]|]; reflexivity. Qed.

Ltac body_steps HU :=
  repeat first
    [ rewrite bind_assoc
    | rewrite step_enqueue
    | rewrite step_set_local_U
    | rewrite step_ret
    | rewrite (step_global_U _ _ _ _ _ HU) ];
  cbn [app]; unfold ret.

(** Over a module whose [U] is the matrix the file binds, a body queues the
    tape of the qnode. *)
Lemma body_tape (q : QNode) (a : Args q) (g : Globals) :
  g_U g = Some I4.U \/ in_I4 q = false ->
  exists f : Frame,
    body q a (mkFrame g None []) = Some (qml.measurement (func q a), f)
    /\ queue f = qml.operations (func q a).
Proof.
  intros [HU | Hq].
  - destruct q; simpl in a; unfold body;
      [ unfold varied_initial_state_body, func, I4.varied_initial_state_func;
        destruct (a =? 1)%Z
      | unfold apply_hadamard_body
      | unfold apply_hadamard_to_state_body, func, I4.apply_hadamard_to_state_func;
        destruct (a =? 1)%Z
      | unfold apply_hxh_body, func, I4.apply_hxh_func; destruct (a =? 1)%Z
      | unfold apply_z_to_plus_body
      | unfold fake_z_body
      | unfold many_rotations_body
      | unfold just_enough_ts_body ];
      body_steps HU; eexists; (split; [reflexivity | reflexivity]).
  - destruct q; try discriminate Hq; simpl in a; unfold body;
      [ unfold apply_z_to_plus_body
      | unfold fake_z_body
      | unfold many_rotations_body
      | unfold just_enough_ts_body ];
      body_steps Hq; eexists; (split; [reflexivity | reflexivity]).
Qed.

Lemma call_in_keeps (q : QNode) (a : Args q) (m : ModuleState) :
  snd (call_in q a m) = m.
Proof.
  unfold call_in. destruct (decorated m q); [|reflexivity].
  destruct (body q a _) as [[r f]|] eqn:E; [|reflexivity].
  apply body_keeps_globals in E. cbn [frame_globals snd] in E |- *. rewrite E.
  destruct m; reflexivity.
Qed.

Lemma call_in_result (q : QNode) (a : Args q) (m : ModuleState) :
  decorated m q = Some (device_of q) ->
  g_U (globals m) = Some I4.U \/ in_I4 q = false ->
  fst (call_in q a m) = call q a.
Proof.
  intros Hd HU. unfold call_in. rewrite Hd.
  destruct (body_tape q a (globals m) HU) as (f & E & Hq).
  rewrite E. cbn [fst]. rewrite Hq. unfold call, qml.qnode.
  rewrite <- tape_eta. reflexivity.
Qed.

Lemma invoke_keeps (c : Call) (s : Session) : snd (invoke c s) = s.
Proof.
  unfold invoke. destruct (in_I4 (callee c)); cbn [snd];
    rewrite call_in_keeps; destruct s; reflexivity.
Qed.

Lemma invoke_all_keeps (cs : list Call) (s : Session) : invoke_all cs s = s.
Proof.
  induction cs as [|c cs IH]; simpl; [reflexivity|].
  rewrite invoke_keeps. apply IH.
Qed.

(** The result does follow the module's [U]: with [U] rebound to the matrix
    of Pauli-X, [varied_initial_state(0)] returns |1>. *)
Lemma call_reads_global_U (m : ModuleState) :
  decorated m Q_varied_initial_state = Some I4.dev ->
  g_U (globals m) = Some (qml.matrix (qml.PauliX 0)) ->
  fst (call_in Q_varied_initial_state 0%Z m) = Some (qml.StateVector ket1).
Proof.
  intros Hd HU. unfold call_in. rewrite Hd.
  unfold body, varied_initial_state_body. change (0 =? 1)%Z with false. cbv iota.
  body_steps HU. cbn [fst queue]. unfold ket1.
  run_circuit. amplitudes; lra.
Qed.

(** Importing the two files succeeds; afterwards every qnode carries the
    device bound to [dev] when it was decorated, whatever [dev] was bound to
    later, and [U] of I4 is the matrix of its assignment. *)
Lemma imported_session :
  exists s0 : Session,
    imported = Some s0
    /\ (forall q : QNode,
          decorated (if in_I4 q then session_I4 s0 else session_I5 s0) q
          = Some (device_of q))
    /\ g_U (globals (session_I4 s0)) = Some I4.U
    /\ g_dev (globals (session_I5 s0)) = Some I5.dev3.
Proof.
  eexists. split; [reflexivity|]. split; [|split; reflexivity].
  intros q; destruct q; reflexivity.
Qed.

(** C7: once the two files are imported, no call rebinds a module variable
    or a decorated function, whatever the state of the modules; so after any
    history of calls a call returns what the qnode returns for its argument,
    and calling the same qnode again with the same argument returns the same
    result. *)
Theorem calls_are_stateless :
  exists s0 : Session,
    imported = Some s0
    /\ (forall (c : Call) (s : Session), snd (invoke c s) = s)
    /\ (forall (history : list Call) (c : Call),
          fst (invoke c (invoke_all history s0)) = call (callee c) (argument c))
    /\ (forall c : Call,
          fst (invoke c (snd (invoke c s0))) = fst (invoke c s0)).
Proof.
  destruct imported_session as (s0 & E & Hd & HU & _).
  exists s0. split; [exact E|].
  split; [exact invoke_keeps|].
  split.
  - intros history [q a]. rewrite invoke_all_keeps.
    unfold invoke. cbn [callee argument]. specialize (Hd q).
    destruct (in_I4 q) eqn:Eq; cbn [fst];
      apply call_in_result; try exact Hd; [left; exact HU | right; exact Eq].
  - intros c. rewrite invoke_keeps. reflexivity.
Qed.

(** ** The angle literal of [fake_z] against pi *)

Lemma PI_lt_fake_z_angle : PI < I5.fake_z_angle.
Proof.
  unfold I5.fake_z_angle.
  destruct (PI_2_3_7_ineq 6) as [_ H].
  unfold PI_2_3_7_tg, tg_alt, Ratan.Ratan_seq in H.
  cbn [sum_f_R0 Nat.mul Nat.add] in H.
  simpl INR in H.
  lra.
Qed.

Lemma fake_z_angle_close : I5.fake_z_angle < PI + 1 / 1000000000000.
Proof.
  unfold I5.fake_z_angle.
  destruct (PI_2_3_7_ineq 6) as [H _].
  unfold PI_2_3_7_tg, tg_alt, Ratan.Ratan_seq in H.
  cbn [sum_f_R0 Nat.mul Nat.add] in H.
  simpl INR in H.
  lra.
Qed.


Lemma inv_sqrt2_pos : 0 < qml.INV_SQRT2.
Proof.
  unfold qml.INV_SQRT2. apply Rdiv_lt_0_compat; [lra|].
  apply sqrt_lt_R0; lra.
Qed.

Lemma apply_z_to_plus_value :
  I5.apply_z_to_plus
  = Some (qml.StateVector [(qml.INV_SQRT2, 0); (- qml.INV_SQRT2, 0)]).
Proof. unfold I5.apply_z_to_plus. run_circuit. amplitudes; lra. Qed.

Lemma fake_z_at_value (phi : R) :
  fake_z_at phi
  = Some (qml.StateVector
            [(cos (phi / 2) * qml.INV_SQRT2, - sin (phi / 2) * qml.INV_SQRT2);
             (cos (phi / 2) * qml.INV_SQRT2, sin (phi / 2) * qml.INV_SQRT2)]).
Proof.
  unfold fake_z_at. run_circuit.
  replace (- phi / 2) with (- (phi / 2)) by field.
  rewrite cos_neg, sin_neg.
  amplitudes; ring.
Qed.





(** * Further properties *)

(** ** States of the Hadamard circuits *)

Lemma apply_hadamard_value : I4.apply_hadamard = Some (qml.StateVector plus_state).
Proof. unfold I4.apply_hadamard, plus_state. run_circuit. amplitudes; lra. Qed.

Lemma apply_hadamard_to_state_value (state : Z) :
  I4.apply_hadamard_to_state state
  = Some (qml.StateVector (if (state =? 1)%Z then minus_state else plus_state)).
Proof.
  unfold I4.apply_hadamard_to_state, I4.apply_hadamard_to_state_func, plus_state, minus_state.
  destruct (state =? 1)%Z; run_circuit; amplitudes; lra.
Qed.

Lemma varied_initial_state_value (state : Z) :
  I4.varied_initial_state state
  = Some (qml.StateVector (if (state =? 1)%Z then minus_state else plus_state)).
Proof.
  assert (Hn : -1 / sqrt 2 = - qml.INV_SQRT2)
    by (unfold qml.INV_SQRT2; field; apply sqrt2_neq_0).
  unfold I4.varied_initial_state, I4.varied_initial_state_func, I4.U, plus_state, minus_state.
  rewrite Hn. fold qml.INV_SQRT2.
  destruct (state =? 1)%Z; run_circuit; amplitudes; lra.
Qed.

Lemma apply_hxh_value (state : Z) :
  I4.apply_hxh state
  = Some (qml.StateVector (if (state =? 1)%Z then map Copp ket1 else ket0)).
Proof.
  pose proof inv_sqrt2_sqr as Hs.
  unfold I4.apply_hxh, I4.apply_hxh_func, ket0, ket1.
  destruct (state =? 1)%Z; run_circuit; amplitudes; lra.
Qed.

(** X1: for every flag [apply_hadamard_to_state] returns a uniform
    superposition, |-> for flag 1 and |+> otherwise, both outcomes having
    probability 1/2; |+> is also what [apply_hadamard] returns. *)
Theorem hadamard_gives_uniform_superposition (state : Z) :
  exists v : list C,
    I4.apply_hadamard_to_state state = Some (qml.StateVector v)
    /\ v = (if (state =? 1)%Z then minus_state else plus_state)
    /\ map Cnorm2 v = [1 / 2; 1 / 2]
    /\ I4.apply_hadamard = Some (qml.StateVector plus_state).
Proof.
  pose proof inv_sqrt2_sqr as Hs.
  eexists. split; [apply apply_hadamard_to_state_value|]. split; [reflexivity|]. split.
  - destruct (state =? 1)%Z; unfold minus_state, plus_state, Cnorm2, RtoC; simpl;
      repeat (apply f_equal2; [lra|]); reflexivity.
  - apply apply_hadamard_value.
Qed.

(** X6: Pauli-Z on |+> is Hadamard on |1>: [apply_z_to_plus] of I5.py
    returns the state |-> that [apply_hadamard_to_state] and
    [varied_initial_state] of I4.py return for flag 1. *)
Theorem z_on_plus_is_hadamard_on_one :
  I5.apply_z_to_plus = I4.apply_hadamard_to_state 1
  /\ I5.apply_z_to_plus = I4.varied_initial_state 1
  /\ I5.apply_z_to_plus = Some (qml.StateVector minus_state).
Proof.
  rewrite apply_hadamard_to_state_value, varied_initial_state_value, apply_z_to_plus_value.
  repeat split; reflexivity.
Qed.

(** X2: each flag qnode sends flag 1 and any other flag to two orthogonal
    unit vectors, so the two preparations stay perfectly distinguishable. *)
Theorem flags_give_orthogonal_states (q : QNode) (f : Z -> qml.Tape) (state : Z) :
  flag_func q = Some f ->
  state <> 1%Z ->
  exists v0 v1 : list C,
    qml.qnode (device_of q) (f state) = Some (qml.StateVector v0)
    /\ qml.qnode (device_of q) (f 1%Z) = Some (qml.StateVector v1)
    /\ inner v0 v1 = C0
    /\ inner v0 v0 = C1
    /\ inner v1 v1 = C1.
Proof.
  pose proof inv_sqrt2_sqr as Hs.
  intros Hq H. apply Z.eqb_neq in H.
  destruct q; simpl in Hq; try discriminate; injection Hq as <-; simpl device_of.
  - fold (I4.varied_initial_state state). fold (I4.varied_initial_state 1).
    rewrite !varied_initial_state_value, H. simpl.
    eexists. eexists. split; [reflexivity|]. split; [reflexivity|].
    unfold plus_state, minus_state, inner, Cplus, Cmult, Cconj, C0, C1, RtoC; simpl.
    repeat split; amplitudes; lra.
  - fold (I4.apply_hadamard_to_state state). fold (I4.apply_hadamard_to_state 1).
    rewrite !apply_hadamard_to_state_value, H. simpl.
    eexists. eexists. split; [reflexivity|]. split; [reflexivity|].
    unfold plus_state, minus_state, inner, Cplus, Cmult, Cconj, C0, C1, RtoC; simpl.
    repeat split; amplitudes; lra.
  - fold (I4.apply_hxh state). fold (I4.apply_hxh 1).
    rewrite !apply_hxh_value, H. simpl.
    eexists. eexists. split; [reflexivity|]. split; [reflexivity|].
    unfold ket0, ket1, inner, Cplus, Cmult, Cconj, Copp, C0, C1, RtoC; simpl.
    repeat split; amplitudes; lra.
Qed.

(** X2 at [apply_hxh] and flag 0. *)
Lemma flags_give_orthogonal_states_witness :
  exists v0 v1 : list C,
    I4.apply_hxh 0 = Some (qml.StateVector v0)
    /\ I4.apply_hxh 1 = Some (qml.StateVector v1)
    /\ inner v0 v1 = C0.
Proof.
  assert (H : 0%Z <> 1%Z) by discriminate.
  destruct (flags_give_orthogonal_states Q_apply_hxh I4.apply_hxh_func 0 eq_refl H)
    as (v0 & v1 & E0 & E1 & Ho & _).
  exists v0, v1. repeat split; assumption.
Defined.

(** X8: the matrix [U] handed to [QubitUnitary] is unitary, equal to its own
    conjugate transpose and its own inverse. *)
Theorem U_unitary_involution :
  unitary I4.U /\ Madjoint I4.U = I4.U /\ Mmult I4.U I4.U = I2.
Proof.
  pose proof inv_sqrt2_sqr as Hs. unfold qml.INV_SQRT2 in Hs.
  assert (Hn : -1 / sqrt 2 = - (1 / sqrt 2)) by (field; apply sqrt2_neq_0).
  split; [apply unitary_U|].
  split; unfold I4.U; matrix_eq; rewrite Hn; repeat f_equal; lra.
Qed.

(** ** Diagonal gates, depth and the angle of [fake_z] *)

(** One wire: the first Hadamard, then gates with a diagonal matrix. *)
Lemma run_hadamard_first (rest : list qml.Operation) :
  qml.apply_operations 1 (qml.Hadamard 0 :: rest) (basis0 1)
  = qml.apply_operations 1 rest (RtoC qml.INV_SQRT2, RtoC qml.INV_SQRT2).
Proof.
  simpl. f_equal. unfold Cplus, Cmult, C0, C1, RtoC; simpl. amplitudes; ring.
Qed.

Lemma Cnorm2_zero (z : C) : Cnorm2 z = 0 -> z = C0.
Proof.
  destruct z as [x y]. unfold Cnorm2, C0, RtoC; simpl. intros H.
  assert (x = 0) by nra. assert (y = 0) by nra. subst. reflexivity.
Qed.

Lemma run_diagonal_step (op : qml.Operation) (rest : list qml.Operation) (a b : C) :
  Cnorm2 (m01 (qml.matrix op)) = 0 ->
  Cnorm2 (m10 (qml.matrix op)) = 0 ->
  qml.wire op = 0%nat ->
  qml.apply_operations 1 (op :: rest) (a, b)
  = qml.apply_operations 1 rest
      (Cmult (m00 (qml.matrix op)) a, Cmult (m11 (qml.matrix op)) b).
Proof.
  intros H01 H10 Hw. apply Cnorm2_zero in H01, H10.
  cbn [qml.apply_operations]. rewrite Hw. cbn [apply_matrix tadd tscale fst snd].
  rewrite H01, H10. f_equal.
  destruct a as [a1 a2], b as [b1 b2], (m00 (qml.matrix op)) as [x1 x2],
    (m11 (qml.matrix op)) as [y1 y2].
  unfold Cplus, Cmult, C0, RtoC; simpl. amplitudes; ring.
Qed.

Ltac diagonal_steps :=
  repeat (rewrite run_diagonal_step;
          [ | unfold Cnorm2, Cconj, C0, RtoC; simpl; ring ..
            | reflexivity ]).

Lemma many_rotations_value :
  I5.many_rotations
  = Some (qml.StateVector
            [Cmult (RtoC qml.INV_SQRT2) (Cexp (- (0.3 / 2)));
             Cmult (RtoC qml.INV_SQRT2) (Cexp (0.3 / 2 - PI / 4))]).
Proof.
  unfold I5.many_rotations, I5.many_rotations_func, qml.qnode, qml.execute.
  cbn [qml.operations qml.measurement qml.num_wires I5.dev].
  rewrite run_hadamard_first. diagonal_steps.
  cbn [qml.apply_operations qml.measure flatten fst snd app qml.matrix m00 m11 Madjoint].
  unfold Cmult, Cconj, Cexp, C1, Ci, RtoC; simpl.
  replace (- (0.3) / 2) with (- (0.3 / 2)) by lra.
  rewrite cos_minus, sin_minus, cos_neg, sin_neg.
  amplitudes; ring.
Qed.

Lemma many_rotations_short_value :
  qml.qnode I5.dev
    (qml.mkTape [qml.Hadamard 0; qml.adjoint (qml.T 0); qml.RZ 0.3 0] qml.state)
  = Some (qml.StateVector
            [Cmult (RtoC qml.INV_SQRT2) (Cexp (- (0.3 / 2)));
             Cmult (RtoC qml.INV_SQRT2) (Cexp (0.3 / 2 - PI / 4))]).
Proof.
  unfold qml.qnode, qml.execute.
  cbn [qml.operations qml.measurement qml.num_wires I5.dev].
  rewrite run_hadamard_first. diagonal_steps.
  cbn [qml.apply_operations qml.measure flatten fst snd app qml.matrix m00 m11 Madjoint].
  unfold Cmult, Cconj, Cexp, C1, Ci, RtoC; simpl.
  replace (- (0.3) / 2) with (- (0.3 / 2)) by lra.
  rewrite cos_minus, sin_minus, cos_neg, sin_neg.
  amplitudes; ring.
Qed.

Lemma Cabs_lt (z : C) (e : R) : 0 < e -> Cnorm2 z < e * e -> Cabs z < e.
Proof.
  intros He H. unfold Cabs.
  rewrite <- (sqrt_square e) by lra.
  apply sqrt_lt_1_alt. split; [apply Cnorm2_nonneg | exact H].
Qed.

Lemma Cabs_inv_sqrt2_phase (t : R) :
  Cabs (Cmult (RtoC qml.INV_SQRT2) (Cexp t)) = 1 / sqrt 2.
Proof.
  unfold Cabs. rewrite Cnorm2_Cmult, Cnorm2_Cexp, Rmult_1_r.
  unfold Cnorm2, RtoC; simpl. rewrite Rmult_0_l, Rplus_0_r.
  apply sqrt_square. left. apply inv_sqrt2_pos.
Qed.

(** X3: [many_rotations] returns [exp(-0.15 i)/sqrt 2] and
    [exp((0.15 - pi/4) i)/sqrt 2], both of modulus 1/sqrt(2); the S gate and
    the closing adjoint S cancel around the diagonal gates between them, the
    tape without the two returning the same state. *)
Theorem many_rotations_phases :
  exists v : list C,
    I5.many_rotations = Some (qml.StateVector v)
    /\ v = [Cmult (RtoC qml.INV_SQRT2) (Cexp (- (0.3 / 2)));
            Cmult (RtoC qml.INV_SQRT2) (Cexp (0.3 / 2 - PI / 4))]
    /\ map Cabs v = [1 / sqrt 2; 1 / sqrt 2]
    /\ qml.qnode I5.dev
         (qml.mkTape [qml.Hadamard 0; qml.adjoint (qml.T 0); qml.RZ 0.3 0] qml.state)
       = Some (qml.StateVector v).
Proof.
  eexists. split; [apply many_rotations_value|]. split; [reflexivity|]. split.
  - simpl. rewrite !Cabs_inv_sqrt2_phase. reflexivity.
  - apply many_rotations_short_value.
Qed.

(** X5: the tape of [just_enough_ts] puts 5, 6 and 6 operations and 0, 1
    and 2 T gates on its three wires, so its depth is 6 and its T-depth 2,
    the figures the file records as optimal, each below the figure recorded
    for the original circuit. *)
Theorem just_enough_ts_depths :
  depth 3 I5.just_enough_ts_func = I5.optimal_depth
  /\ t_depth 3 I5.just_enough_ts_func = I5.optimal_t_depth
  /\ map (wire_load (fun _ => true) (qml.operations I5.just_enough_ts_func)) (seq 0 3)
     = [5; 6; 6]%nat
  /\ map (wire_load is_t_gate (qml.operations I5.just_enough_ts_func)) (seq 0 3)
     = [0; 1; 2]%nat
  /\ (I5.optimal_depth < I5.original_depth)%nat
  /\ (I5.optimal_t_depth < I5.original_t_depth)%nat.
Proof.
  repeat split; try reflexivity;
    unfold I5.optimal_depth, I5.original_depth, I5.optimal_t_depth, I5.original_t_depth; lia.
Qed.

Lemma one_minus_cos_le (d : R) : 0 < d -> d < 1 -> 1 - cos d <= d * d.
Proof.
  intros H0 H1.
  pose proof (sin_lt_x d H0) as Hs.
  pose proof PI2_1 as Hpi.
  assert (Hsin : 0 <= sin d) by (apply sin_ge_0; lra).
  assert (Hcos : 0 <= cos d) by (apply cos_ge_0; lra).
  pose proof (cos_sin_sqr d) as Hcs.
  pose proof (COS_bound d) as [_ Hc1].
  nra.
Qed.

(** X9: the operations of [just_enough_ts] that are T or its adjoint are T
    on wire 1 and the adjoint of T twice on wire 2, three in all, the figure
    the file notes as the optimal T-count. *)
Theorem just_enough_ts_t_gates :
  filter is_t_gate (qml.operations I5.just_enough_ts_func)
  = [qml.T 1; qml.adjoint (qml.T 2); qml.adjoint (qml.T 2)]
  /\ t_count I5.just_enough_ts_func = 3%nat
  /\ t_count I5.just_enough_ts_func = I5.optimal_t_count.
Proof. repeat split; reflexivity. Qed.

(** X7: each amplitude [fake_z] returns lies within 1e-12 of
    [exp(-i*pi/2)] times the matching amplitude of [apply_z_to_plus]. *)
Theorem fake_z_close_to_z :
  exists v w : list C,
    I5.fake_z = Some (qml.StateVector v)
    /\ I5.apply_z_to_plus = Some (qml.StateVector w)
    /\ Forall2 (fun a b => Cabs (Cminus a (Cmult (Cexp (- PI / 2)) b)) < 1 / 1000000000000)
               v w.
Proof.
  pose proof PI_lt_fake_z_angle as Hlo.
  pose proof fake_z_angle_close as Hhi.
  pose proof inv_sqrt2_sqr as Hs.
  pose proof inv_sqrt2_pos as Hpos.
  set (d := I5.fake_z_angle / 2 - PI / 2).
  assert (Hd0 : 0 < d) by (unfold d; lra).
  assert (Hd1 : d < 1 / 2000000000000) by (unfold d; lra).
  assert (Hcos : cos (I5.fake_z_angle / 2) = - sin d).
  { rewrite (sin_cos d). unfold d. rewrite Ropp_involutive. f_equal. field. }
  assert (Hsin : sin (I5.fake_z_angle / 2) = cos d).
  { rewrite (Rtrigo1.cos_sin d). unfold d. f_equal. field. }
  pose proof (one_minus_cos_le d Hd0 ltac:(lra)) as Hb.
  pose proof (cos_sin_sqr d) as Hcs.
  eexists. eexists.
  split; [change I5.fake_z with (fake_z_at I5.fake_z_angle); apply fake_z_at_value|].
  split; [apply apply_z_to_plus_value|].
  assert (Hphase : Cexp (- PI / 2) = (0, -1)).
  { unfold Cexp. replace (- PI / 2) with (- (PI / 2)) by field.
    rewrite cos_neg, sin_neg, cos_PI2, sin_PI2. reflexivity. }
  rewrite Hphase, Hcos, Hsin.
  assert (Hn : (1 - cos d) < 1 / 1000000000000 * (1 / 1000000000000)) by nra.
  repeat constructor; apply Cabs_lt; try lra;
    unfold Cnorm2, Cminus, Cplus, Copp, Cmult; simpl.
  - replace (_ + _) with ((sin d * sin d + cos d * cos d + 1 - 2 * cos d)
                          * (qml.INV_SQRT2 * qml.INV_SQRT2)) by ring.
    rewrite Hs. lra.
  - replace (_ + _) with ((sin d * sin d + cos d * cos d + 1 - 2 * cos d)
                          * (qml.INV_SQRT2 * qml.INV_SQRT2)) by ring.
    rewrite Hs. lra.
Qed.

(** ** Soundness of the exact amplitudes *)

Lemma sqrt2_sqr : sqrt 2 * sqrt 2 = 2.
Proof. apply sqrt_sqrt; lra. Qed.

Lemma Q2R_Qred (q : Q) : Q2R (Qred q) = Q2R q.
Proof. apply Qeq_eqR, Qred_correct. Qed.

Lemma Q2toR_add (x y : Q2) : Q2toR (Q2add x y) = Q2toR x + Q2toR y.
Proof.
  unfold Q2toR, Q2add; cbn [fst snd]. rewrite !Q2R_Qred, !Q2R_plus. ring.
Qed.

Lemma Q2toR_sub (x y : Q2) : Q2toR (Q2sub x y) = Q2toR x - Q2toR y.
Proof.
  unfold Q2toR, Q2sub; cbn [fst snd]. rewrite !Q2R_Qred, !Q2R_minus. ring.
Qed.

Lemma Q2toR_neg (x : Q2) : Q2toR (Q2neg x) = - Q2toR x.
Proof.
  unfold Q2toR, Q2neg; cbn [fst snd]. rewrite !Q2R_Qred, !Q2R_opp. ring.
Qed.

Lemma Q2toR_mul (x y : Q2) : Q2toR (Q2mul x y) = Q2toR x * Q2toR y.
Proof.
  unfold Q2toR, Q2mul; cbn [fst snd].
  rewrite !Q2R_Qred, !Q2R_plus, !Q2R_mult.
  replace (Q2R (2 # 1)) with 2 by (unfold Q2R; simpl; lra).
  transitivity
    (Q2R (fst x) * Q2R (fst y) + Q2R (snd x) * Q2R (snd y) * (sqrt 2 * sqrt 2)
     + (Q2R (fst x) * Q2R (snd y) + Q2R (snd x) * Q2R (fst y)) * sqrt 2).
  - rewrite sqrt2_sqr. ring.
  - ring.
Qed.

Lemma XCtoC_add (a b : XC) : XCtoC (XCadd a b) = Cplus (XCtoC a) (XCtoC b).
Proof. unfold XCtoC, XCadd, Cplus; simpl. rewrite !Q2toR_add. reflexivity. Qed.

Lemma XCtoC_mul (a b : XC) : XCtoC (XCmul a b) = Cmult (XCtoC a) (XCtoC b).
Proof.
  unfold XCtoC, XCmul, Cmult; simpl.
  rewrite Q2toR_sub, Q2toR_add, !Q2toR_mul. reflexivity.
Qed.

Lemma XCtoC_conj (a : XC) : XCtoC (XCconj a) = Cconj (XCtoC a).
Proof. unfold XCtoC, XCconj, Cconj; simpl. rewrite Q2toR_neg. reflexivity. Qed.

Lemma XCnorm2_sound (a : XC) : Q2toR (XCnorm2 a) = Cnorm2 (XCtoC a).
Proof.
  unfold XCnorm2, Cnorm2, XCtoC; simpl. rewrite Q2toR_add, !Q2toR_mul. reflexivity.
Qed.

Lemma Q2toR_zero : Q2toR Q2zero = 0.
Proof. unfold Q2toR, Q2zero, Q2R; simpl. lra. Qed.

Lemma Q2toR_one : Q2toR (1 # 1, 0 # 1)%Q = 1.
Proof. unfold Q2toR, Q2R; simpl. lra. Qed.

Lemma Q2toR_inv_sqrt2 : Q2toR (0 # 1, 1 # 2)%Q = qml.INV_SQRT2.
Proof.
  unfold Q2toR, Q2R, qml.INV_SQRT2; simpl.
  pose proof sqrt2_neq_0 as Hn. pose proof sqrt2_sqr as Hs.
  apply (Rmult_eq_reg_r (sqrt 2)); [|exact Hn].
  replace (1 / sqrt 2 * sqrt 2) with 1 by (field; exact Hn).
  lra.
Qed.

Lemma XCtoC_0 : XCtoC XC0 = C0.
Proof. unfold XCtoC, XC0, C0, RtoC; simpl. rewrite Q2toR_zero. reflexivity. Qed.

Lemma XCtoC_1 : XCtoC XC1 = C1.
Proof.
  unfold XCtoC, XC1, C1, RtoC; simpl. rewrite Q2toR_zero, Q2toR_one. reflexivity.
Qed.

Lemma XMtoM_adjoint (M : XMatrix2) : XMtoM (XMadjoint M) = Madjoint (XMtoM M).
Proof. unfold XMtoM, XMadjoint, Madjoint; simpl. rewrite !XCtoC_conj. reflexivity. Qed.

Lemma xmatrix_sound (op : qml.Operation) (M : XMatrix2) :
  xmatrix op = Some M -> XMtoM M = qml.matrix op.
Proof.
  revert M. induction op; intros M H; simpl in H; try discriminate.
  - injection H as <-. unfold XMtoM; simpl. rewrite XCtoC_0, XCtoC_1. reflexivity.
  - injection H as <-. unfold XMtoM; simpl. rewrite XCtoC_0, XCtoC_1.
    unfold XCtoC, XCconj, RtoC; simpl.
    rewrite !Q2toR_neg, Q2toR_zero, Q2toR_one. repeat f_equal; lra.
  - injection H as <-. unfold XMtoM, XCtoC, XCinv_sqrt2, RtoC; simpl.
    rewrite Q2toR_neg, Q2toR_zero, Q2toR_inv_sqrt2. reflexivity.
  - injection H as <-. unfold XMtoM; simpl. rewrite XCtoC_0, XCtoC_1.
    unfold XCtoC, XCi, Ci; simpl. rewrite Q2toR_zero, Q2toR_one. reflexivity.
  - injection H as <-. unfold XMtoM; simpl. rewrite XCtoC_0, XCtoC_1.
    unfold XCtoC, Cexp; simpl.
    rewrite Q2toR_inv_sqrt2, cos_PI4, sin_PI4. reflexivity.
  - destruct (xmatrix op) as [M'|]; [|discriminate]. injection H as <-.
    rewrite XMtoM_adjoint, (IHop M' eq_refl). reflexivity.
Qed.

Lemma xinterp_tzero (n : nat) : xinterp n (xtzero n) = tzero n.
Proof. induction n as [|k IH]; simpl; [apply XCtoC_0 | rewrite IH; reflexivity]. Qed.

Lemma xinterp_basis0 (n : nat) : xinterp n (xbasis0 n) = basis0 n.
Proof.
  induction n as [|k IH]; simpl; [apply XCtoC_1 | rewrite IH, xinterp_tzero; reflexivity].
Qed.

Lemma xinterp_tadd (n : nat) (a b : xtensor n) :
  xinterp n (xtadd n a b) = tadd n (xinterp n a) (xinterp n b).
Proof.
  induction n as [|k IH]; simpl; [apply XCtoC_add | rewrite !IH; reflexivity].
Qed.

Lemma xinterp_tscale (n : nat) (c : XC) (a : xtensor n) :
  xinterp n (xtscale n c a) = tscale n (XCtoC c) (xinterp n a).
Proof.
  induction n as [|k IH]; simpl; [apply XCtoC_mul | rewrite !IH; reflexivity].
Qed.

Lemma xinterp_flatten (n : nat) (a : xtensor n) :
  flatten n (xinterp n a) = map XCtoC (xflatten n a).
Proof.
  induction n as [|k IH]; simpl; [reflexivity | rewrite map_app, !IH; reflexivity].
Qed.

Lemma xapply_matrix_sound (M : XMatrix2) :
  forall n w (psi psi' : xtensor n),
    xapply_matrix M n w psi = Some psi' ->
    apply_matrix (XMtoM M) n w (xinterp n psi) = Some (xinterp n psi').
Proof.
  induction n as [|k IH]; intros w psi psi' H; [discriminate|].
  destruct psi as [lo hi]. destruct w as [|w']; simpl in H |- *.
  - injection H as <-. simpl.
    rewrite !xinterp_tadd, !xinterp_tscale. reflexivity.
  - destruct (xapply_matrix M k w' lo) as [lo'|] eqn:El; [|discriminate].
    destruct (xapply_matrix M k w' hi) as [hi'|] eqn:Eh; [|discriminate].
    injection H as <-. rewrite (IH _ _ _ El), (IH _ _ _ Eh). reflexivity.
Qed.

Lemma xapply_operations_sound (n : nat) (ops : list qml.Operation) :
  forall psi psi' : xtensor n,
    xapply_operations n ops psi = Some psi' ->
    qml.apply_operations n ops (xinterp n psi) = Some (xinterp n psi').
Proof.
  induction ops as [|op rest IH]; intros psi psi' H; simpl in H |- *.
  - injection H as <-. reflexivity.
  - destruct (xmatrix op) as [M|] eqn:EM; [|discriminate].
    destruct (xapply_matrix M n (qml.wire op) psi) as [phi|] eqn:E; [|discriminate].
    rewrite <- (xmatrix_sound op M EM), (xapply_matrix_sound M _ _ _ _ E).
    apply IH, H.
Qed.

Lemma xexecute_probs3 (ops : list qml.Operation) (psi : xtensor 3) :
  xapply_operations 3 ops (xbasis0 3) = Some psi ->
  qml.execute (qml.device 3) (qml.mkTape ops (qml.probs [0; 1; 2]%nat))
  = Some (qml.Probabilities
            (map (fun a => Q2toR (XCnorm2 a) + 0) (xflatten 3 psi))).
Proof.
  intros H. apply xapply_operations_sound in H. rewrite xinterp_basis0 in H.
  unfold qml.execute. cbn [qml.num_wires qml.operations qml.measurement].
  rewrite H. unfold qml.measure.
  change (wires_ok 3 [0; 1; 2]%nat) with true. cbv iota.
  change (2 ^ List.length [0; 1; 2])%nat with 8%nat.
  rewrite marginal_all3, xinterp_flatten, map_map.
  do 2 f_equal. apply map_ext. intros a. rewrite XCnorm2_sound. reflexivity.
Qed.

(** X4: [just_enough_ts] returns the probabilities 0, 0, 0, 0, 3/8, 1/8,
    3/8, 1/8: wire 0 is measured as 1 with certainty, and the distribution is
    the product of (0, 1), (1/2, 1/2) and (3/4, 1/4) over the three wires. *)
Theorem just_enough_ts_probabilities :
  I5.just_enough_ts
  = Some (qml.Probabilities [0; 0; 0; 0; 3 / 8; 1 / 8; 3 / 8; 1 / 8])
  /\ [0; 0; 0; 0; 3 / 8; 1 / 8; 3 / 8; 1 / 8]
     = flat_map (fun p0 => flat_map (fun p1 => map (fun p2 => p0 * p1 * p2)
                                                  [3 / 4; 1 / 4])
                                    [1 / 2; 1 / 2])
                [0; 1].
Proof.
  split; [|simpl; repeat (apply f_equal2; [lra|]); reflexivity].
  unfold I5.just_enough_ts, qml.qnode, I5.just_enough_ts_func, I5.dev3.
  destruct (xapply_operations 3
              (qml.operations I5.just_enough_ts_func) (xbasis0 3)) as [psi|] eqn:E;
    vm_compute in E; [|discriminate].
  injection E as <-.
  erewrite xexecute_probs3 by (vm_compute; reflexivity).
  unfold Q2toR, Q2R; simpl.
  do 2 apply f_equal. repeat (apply f_equal2; [lra|]). reflexivity.
Qed.
